(** * tauri-py: the Python command handlers of [src-tauri/python/src/__init__.py]

    The module exposes three handlers, [greet], [sum] and [division].
    They are embedded here as computations in a small interpreter monad
    that threads the state of the Python world and may raise one of the
    exceptions Python's arithmetic can raise.  What a function body can
    do to that world (load a global name, bind one, write to the
    standard output) is an operation of the monad, so a body with such
    an effect is written with it and a body without is not.

    Data:
    - Python [int] is arbitrary precision: [Z].
    - Python [str] is a sequence of characters: [string].
    - Python [float] is IEEE 754 binary64: the standard library's
      [spec_float] at precision 53 and maximal exponent 1024.
    - [Optional[float]] is [option spec_float]. *)

From Stdlib Require Import ZArith Bool String Ascii Lia.
From Stdlib Require Import QArith Qabs Qpower Qfield Lqa.
From Stdlib Require Import Floats.SpecFloat.

Local Open Scope Z_scope.

(** ** Outcomes and the interpreter monad *)

(** The exceptions that integer true division can raise. *)
Inductive exn : Type :=
| ZeroDivisionError
| OverflowError.

Inductive outcome (A : Type) : Type :=
| Return (v : A)
| Raise (e : exn).

Arguments Return {A} v.
Arguments Raise {A} e.

(** The objects the handlers and the module's globals hold. *)
Inductive pyobj : Type :=
| PyNone
| PyInt (n : Z)
| PyStr (s : string)
| PyFloat (x : spec_float).

(** What a function body reaches outside its arguments: the names bound
    at module level, which it can load and bind, and the standard output,
    which it can write to.  The world itself is left abstract. *)
Class Outside (World : Type) : Type := {
  global_lookup : string -> World -> option pyobj;
  global_bind : string -> pyobj -> World -> World;
  stdout_write : string -> World -> World
}.

Section Interpreter.

(** Everything outside the arguments of a call. *)
Variable World : Type.
Context {OW : Outside World}.

Definition Py (A : Type) : Type := World -> World * outcome A.

Definition ret {A} (v : A) : Py A := fun w => (w, Return v).

Definition bind {A B} (c : Py A) (k : A -> Py B) : Py B :=
  fun w =>
    match c w with
    | (w', Return v) => k v w'
    | (w', Raise e) => (w', Raise e)
    end.

(** The effects on the world: reading a global name ([None] when it is
    unbound), binding one (an assignment under [global]), and [print]. *)
Definition load_global (x : string) : Py (option pyobj) :=
  fun w => (w, Return (global_lookup x w)).

Definition store_global (x : string) (v : pyobj) : Py unit :=
  fun w => (global_bind x v w, Return tt).

Definition print (s : string) : Py unit :=
  fun w => (stdout_write s w, Return tt).

(** An arithmetic primitive: no access to the world, may raise. *)
Definition prim {A} (o : outcome A) : Py A := fun w => (w, o).

End Interpreter.

Arguments ret {World A} v.
Arguments bind {World A B} c k.
Arguments prim {World A} o.
Arguments load_global {World OW} x.
Arguments store_global {World OW} x v.
Arguments print {World OW} s.

Declare Scope py_scope.
Delimit Scope py_scope with py.
Notation "x <- c ;; k" := (bind c (fun x => k))
  (at level 100, c at next level, right associativity) : py_scope.
Local Open Scope py_scope.

(** The value a call produced, and the world it left behind. *)
Definition result {World A} (r : World * outcome A) : outcome A := snd r.
Definition world_after {World A} (r : World * outcome A) : World := fst r.

(** ** A concrete world *)

(** The module's global names and what has been printed so far. *)
Record PyWorld : Type := {
  globals : string -> option pyobj;
  stdout : string
}.

#[global] Instance PyWorld_Outside : Outside PyWorld := {|
  global_lookup x w := globals w x;
  global_bind x v w :=
    {| globals := fun y => if String.eqb y x then Some v else globals w y;
       stdout := stdout w |};
  stdout_write s w :=
    {| globals := globals w; stdout := (stdout w ++ s)%string |}
|}.

(** The world in which nothing is bound and nothing has been printed. *)
Definition empty_world : PyWorld :=
  {| globals := fun _ => None; stdout := EmptyString |}.

(** The world with nothing to observe: no name is ever bound and output
    is discarded. *)
#[global] Instance unit_Outside : Outside unit := {|
  global_lookup _ _ := None;
  global_bind _ _ w := w;
  stdout_write _ w := w
|}.

(** ** Python [str]: the [in] operator *)

(** [startswith s p]: [s.startswith(p)]. *)
Fixpoint startswith (s p : string) {struct p} : bool :=
  match p with
  | EmptyString => true
  | String c p' =>
      match s with
      | EmptyString => false
      | String d s' => Ascii.eqb c d && startswith s' p'
      end
  end.

(** [str_in needle hay]: [needle in hay]. *)
Fixpoint str_in (needle hay : string) : bool :=
  startswith hay needle ||
  match hay with
  | EmptyString => false
  | String _ hay' => str_in needle hay'
  end.

(** ** Python [float] and the true division of integers *)

Definition float : Type := spec_float.

(** binary64: 53 bits of precision, infinities at exponent 1024. *)
Definition prec : Z := 53.
Definition emax : Z := 1024.

(** The exponent of the smallest subnormal, [-1074]: every finite binary64
    value is an integer number of units [2 ^ emin]. *)
Definition emin : Z := SpecFloat.emin prec emax.

(** The integer nearest to [n / d], ties to the even one ([0 <= n], [0 < d]). *)
Definition rne_div (n d : Z) : Z :=
  let (q, r) := Z.div_eucl n d in
  match 2 * r ?= d with
  | Lt => q
  | Gt => q + 1
  | Eq => if Z.even q then q else q + 1
  end.

(** The least [sh >= 0] for which [n / (d * 2 ^ sh)] is below [2 ^ prec],
    found from the bit lengths of [n] and [d] ([0 <= n], [0 < d]). *)
Definition quot_shift (n d : Z) : Z :=
  let sh := Z.max 0 (Zdigits2 n - Zdigits2 d - prec) in
  if d * 2 ^ (sh + prec) <=? n then sh + 1 else sh.

(** [n / d] rounded to a mantissa below [2 ^ prec] and a shift: the value
    [m * 2 ^ sh].  Rounding up to [2 ^ prec] carries into the shift. *)
Definition round_quot (n d : Z) : Z * Z :=
  let sh := quot_shift n d in
  let m := rne_div n (d * 2 ^ sh) in
  if m =? 2 ^ prec then (2 ^ (prec - 1), sh + 1) else (m, sh).

(** [a / b] on [int]: [ZeroDivisionError] for a zero divisor, otherwise
    the true quotient rounded once to the nearest binary64 value (ties to
    even), and [OverflowError] ("integer division result too large for a
    float") when that rounding leaves the finite range.  A zero result
    carries the sign of the quotient.  The quotient is rounded in units of
    [2 ^ emin]. *)
Definition int_truediv (a b : Z) : outcome float :=
  if b =? 0 then Raise ZeroDivisionError
  else
    let s := xorb (a <? 0) (b <? 0) in
    let '(m, sh) := round_quot (Z.abs a * 2 ^ (- emin)) (Z.abs b) in
    match m with
    | Zpos p =>
        if sh + emin <=? emax - prec then Return (S754_finite s p (sh + emin))
        else Raise OverflowError
    | _ => Return (S754_zero s)
    end.

(** ** Finite binary64 values and what they stand for *)

(** The least magnitude of a quotient that rounds out of the finite range:
    [2 ^ 1024 - 2 ^ 970], half a unit in the last place above the largest
    binary64 value. *)
Definition overflow_bound : Z := (2 ^ (prec + 1) - 1) * 2 ^ (emax - prec - 1).

Definition is_finite (f : float) : bool :=
  match f with
  | S754_zero _ | S754_finite _ _ _ => true
  | S754_infinity _ | S754_nan => false
  end.

(** A finite binary64 value: in canonical form and in range. *)
Definition binary64 (f : float) : Prop :=
  is_finite f = true /\ valid_binary prec emax f = true.

Definition sign_of (f : float) : bool :=
  match f with
  | S754_zero s | S754_infinity s | S754_finite s _ _ => s
  | S754_nan => false
  end.

(** The value of a finite [f] counted in units of [2 ^ emin]. *)
Definition units (f : float) : Z :=
  match f with
  | S754_finite s m e => cond_Zopp s (Zpos m) * 2 ^ (e - emin)
  | _ => 0
  end.

(** The mantissa of a finite [f], zero for a zero. *)
Definition mantissa (f : float) : Z :=
  match f with
  | S754_finite _ m _ => Zpos m
  | _ => 0
  end.

(** The rational number a finite [f] stands for. *)
Definition SF2Q (f : float) : Q :=
  match f with
  | S754_finite s m e => (inject_Z (cond_Zopp s (Zpos m)) * 2 ^ e)%Q
  | _ => 0%Q
  end.

(** The true quotient. *)
Definition quotient (a b : Z) : Q := (inject_Z a / inject_Z b)%Q.

(** An integer as an operand of the standard library's IEEE 754 division
    [SFdiv], which rounds whatever the size of the mantissas. *)
Definition Z2SF (a : Z) : float :=
  match a with
  | Z0 => S754_zero false
  | Zpos p => S754_finite false p 0
  | Zneg p => S754_finite true p 0
  end.

(** The outcome of applying a total function to a returned value. *)
Definition outcome_map {A B : Type} (f : A -> B) (o : outcome A) : outcome B :=
  match o with
  | Return v => Return (f v)
  | Raise e => Raise e
  end.

(** ** The handlers *)

(** Each handler is a computation in the interpreter monad of a world with
    its outside effects at hand; the body decides which of them it uses. *)

(** [def greet(name: str) -> str:
       return f"Hello, {name}! You have been greeted from Python!"] *)
Definition greet {World : Type} {OW : Outside World} (name : string) :
  Py World string :=
  ret ("Hello, " ++ name ++ "! You have been greeted from Python!")%string.

(** [def sum(a: int, b: int) -> int:
       return a + b] *)
Definition sum {World : Type} {OW : Outside World} (a b : Z) : Py World Z :=
  ret (a + b).

(** [def division(a: int, b: int) -> Optional[float]:
       if b == 0:
           return None
       return a / b] *)
Definition division {World : Type} {OW : Outside World} (a b : Z) :
  Py World (option float) :=
  if b =? 0 then ret None
  else (q <- prim (int_truediv a b) ;; ret (Some q)).

(** * Properties *)

(** ** Strings *)

Section StringFacts.

Local Open Scope string_scope.

Lemma startswith_app (p s : string) : startswith (p ++ s) p = true.
Proof.
  induction p as [|c p IH]; simpl; [reflexivity|].
  now rewrite Ascii.eqb_refl, IH.
Qed.

Lemma str_in_here (needle post : string) : str_in needle (needle ++ post) = true.
Proof.
  destruct needle; simpl.
  - destruct post; reflexivity.
  - now rewrite Ascii.eqb_refl, startswith_app.
Qed.

Lemma str_in_app (pre needle post : string) :
  str_in needle (pre ++ needle ++ post) = true.
Proof.
  induction pre as [|c pre IH].
  - exact (str_in_here needle post).
  - change (str_in needle (String c (pre ++ needle ++ post)) = true).
    simpl. rewrite IH. apply orb_true_r.
Qed.

Lemma append_length (s t : string) :
  String.length (s ++ t) = (String.length s + String.length t)%nat.
Proof. induction s; simpl; congruence. Qed.

Lemma append_cancel_r (q s t : string) : s ++ q = t ++ q -> s = t.
Proof.
  revert t. induction s as [|c s IH]; intros [|d t] H; simpl in H.
  - reflexivity.
  - apply (f_equal String.length) in H. simpl in H.
    rewrite append_length in H. lia.
  - apply (f_equal String.length) in H. simpl in H.
    rewrite append_length in H. lia.
  - injection H as Hc H. subst d. f_equal. auto.
Qed.

End StringFacts.

(** ** Rounding a quotient to the nearest integer *)

Section RoundNearestEven.

Variables n d : Z.
Hypothesis Hn : 0 <= n.
Hypothesis Hd : 0 < d.

(** [rne_div] through the Euclidean quotient and remainder. *)
Lemma rne_div_eucl :
  exists q r,
    n = d * q + r /\ 0 <= r < d /\ 0 <= q /\
    rne_div n d =
      match 2 * r ?= d with
      | Lt => q
      | Gt => q + 1
      | Eq => if Z.even q then q else q + 1
      end.
Proof using Hn Hd.
  unfold rne_div.
  pose proof (Z_div_mod n d ltac:(lia)) as H.
  destruct (Z.div_eucl n d) as [q r]. destruct H as [H1 H2].
  exists q, r. repeat split; try lia. nia.
Qed.

(** The result is within half a unit of the quotient. *)
Lemma rne_div_near : 2 * Z.abs (n - rne_div n d * d) <= d.
Proof using Hn Hd.
  destruct rne_div_eucl as (q & r & Hq & Hr & _ & ->).
  destruct (Z.compare_spec (2 * r) d); [destruct (Z.even q)| |]; nia.
Qed.

(** On a tie the even neighbour is chosen. *)
Lemma rne_div_tie_even :
  2 * Z.abs (n - rne_div n d * d) = d -> Z.even (rne_div n d) = true.
Proof using Hn Hd.
  destruct rne_div_eucl as (q & r & Hq & Hr & _ & ->).
  destruct (Z.compare_spec (2 * r) d).
  - destruct (Z.even q) eqn:Hev; intros _; [exact Hev|].
    rewrite Z.even_add, Hev. reflexivity.
  - intros; nia.
  - intros; nia.
Qed.

Lemma rne_div_ge (c : Z) : c * d <= n -> c <= rne_div n d.
Proof using Hn Hd.
  destruct rne_div_eucl as (q & r & Hq & Hr & _ & ->). intros Hc.
  assert (c <= q) by nia.
  destruct (2 * r ?= d); [destruct (Z.even q)| |]; lia.
Qed.

Lemma rne_div_le (c : Z) : n < c * d -> rne_div n d <= c.
Proof using Hn Hd.
  destruct rne_div_eucl as (q & r & Hq & Hr & _ & ->). intros Hc.
  assert (q < c) by nia.
  destruct (2 * r ?= d); [destruct (Z.even q)| |]; lia.
Qed.

(** Below the midpoint under [c] the result stays under [c]. *)
Lemma rne_div_lt_half (c : Z) : 2 * n < (2 * c - 1) * d -> rne_div n d < c.
Proof using Hn Hd.
  destruct rne_div_eucl as (q & r & Hq & Hr & _ & ->). intros Hc.
  assert (q < c) by nia.
  destruct (Z.compare_spec (2 * r) d); [destruct (Z.even q)| |]; nia.
Qed.

(** From the midpoint under an even [c] on, the result reaches [c]. *)
Lemma rne_div_ge_half (c : Z) :
  Z.even c = true -> (2 * c - 1) * d <= 2 * n -> c <= rne_div n d.
Proof using Hn Hd.
  destruct rne_div_eucl as (q & r & Hq & Hr & _ & ->). intros Hev Hc.
  assert (c - 1 <= q) by nia.
  destruct (Z.compare_spec (2 * r) d) as [Heq|Hlt|Hgt].
  - destruct (Z.even q) eqn:Hq'; [|lia].
    assert (q <> c - 1); [|lia].
    intros ->. replace c with (Z.succ (c - 1)) in Hev by lia.
    rewrite Z.even_succ, <- Z.negb_even, Hq' in Hev. discriminate.
  - nia.
  - lia.
Qed.

Lemma rne_div_nonneg : 0 <= rne_div n d.
Proof using Hn Hd. apply rne_div_ge. lia. Qed.

(** No integer is nearer to the quotient than the result. *)
Lemma rne_div_nearest (j : Z) :
  Z.abs (n - rne_div n d * d) <= Z.abs (n - j * d).
Proof using Hn Hd.
  pose proof rne_div_near as H.
  destruct (Z.eq_dec j (rne_div n d)) as [->|Hj]; [lia|].
  nia.
Qed.

End RoundNearestEven.

(** ** Bit lengths and the shift of a quotient *)

Lemma digits2_pos_bounds (p : positive) :
  2 ^ (Zpos (digits2_pos p) - 1) <= Zpos p < 2 ^ Zpos (digits2_pos p).
Proof.
  induction p as [p IH|p IH|]; simpl digits2_pos.
  - rewrite Pos2Z.inj_succ.
    replace (Z.succ (Zpos (digits2_pos p)) - 1) with (Z.succ (Zpos (digits2_pos p) - 1)) by lia.
    rewrite !Z.pow_succ_r by lia. lia.
  - rewrite Pos2Z.inj_succ.
    replace (Z.succ (Zpos (digits2_pos p)) - 1) with (Z.succ (Zpos (digits2_pos p) - 1)) by lia.
    rewrite !Z.pow_succ_r by lia. lia.
  - cbn. lia.
Qed.

Lemma Zdigits2_bounds (n : Z) :
  0 < n -> 0 < Zdigits2 n /\ 2 ^ (Zdigits2 n - 1) <= n < 2 ^ Zdigits2 n.
Proof.
  destruct n as [|p|p]; try lia. intros _. simpl Zdigits2.
  split; [lia | apply digits2_pos_bounds].
Qed.

(** A positive [m] below [2 ^ k] has at most [k] bits, and exactly [k] when
    it is at least [2 ^ (k - 1)]. *)
Lemma Zdigits2_le (m k : Z) : 0 < m < 2 ^ k -> Zdigits2 m <= k.
Proof.
  intros [Hm Hk]. destruct (Zdigits2_bounds m Hm) as (Hpos & Hlo & _).
  destruct (Z_lt_le_dec k (Zdigits2 m)) as [Hlt|]; [|assumption].
  assert (2 ^ k <= 2 ^ (Zdigits2 m - 1)) by (apply Z.pow_le_mono_r; lia).
  lia.
Qed.

Lemma Zdigits2_ge (m k : Z) : 0 <= k -> 2 ^ k <= m -> k + 1 <= Zdigits2 m.
Proof.
  intros Hk Hm.
  assert (0 < m) as Hpos by (pose proof (Z.pow_pos_nonneg 2 k); lia).
  destruct (Zdigits2_bounds m Hpos) as (_ & _ & Hhi).
  destruct (Z_lt_le_dec (Zdigits2 m) (k + 1)) as [Hlt|]; [|assumption].
  assert (2 ^ Zdigits2 m <= 2 ^ k) by (apply Z.pow_le_mono_r; lia).
  lia.
Qed.

Section QuotShift.

Variables n d : Z.
Hypothesis Hn : 0 <= n.
Hypothesis Hd : 0 < d.

Lemma quot_shift_nonneg : 0 <= quot_shift n d.
Proof using Hn Hd.
  unfold quot_shift. destruct (_ <=? _); lia.
Qed.

(** At the shift the quotient is below [2 ^ prec]. *)
Lemma quot_shift_upper : n < d * 2 ^ (quot_shift n d + prec).
Proof using Hn Hd.
  unfold quot_shift.
  set (sh := Z.max 0 (Zdigits2 n - Zdigits2 d - prec)).
  destruct (Z.leb_spec (d * 2 ^ (sh + prec)) n) as [Hle|Hlt]; [|exact Hlt].
  assert (0 < n) as Hpos.
  { assert (0 < 2 ^ (sh + prec)) by (apply Z.pow_pos_nonneg; unfold prec; lia). nia. }
  destruct (Zdigits2_bounds n Hpos) as (_ & _ & Hhi).
  destruct (Zdigits2_bounds d Hd) as (Hdd & Hlo & _).
  assert (2 ^ Zdigits2 n <= 2 ^ (Zdigits2 d - 1 + (sh + 1 + prec))) as Hpow
    by (apply Z.pow_le_mono_r; unfold prec in *; lia).
  rewrite Z.pow_add_r in Hpow by (unfold prec; lia).
  assert (0 < 2 ^ (sh + 1 + prec)) by (apply Z.pow_pos_nonneg; unfold prec; lia).
  nia.
Qed.

(** Below the shift it is not: a positive shift leaves [prec] full bits. *)
Lemma quot_shift_lower :
  0 < quot_shift n d -> d * 2 ^ (quot_shift n d + prec - 1) <= n.
Proof using Hn Hd.
  unfold quot_shift.
  set (sh := Z.max 0 (Zdigits2 n - Zdigits2 d - prec)).
  destruct (Z.leb_spec (d * 2 ^ (sh + prec)) n) as [Hle|Hlt].
  - intros _. replace (sh + 1 + prec - 1) with (sh + prec) by lia. exact Hle.
  - intros Hsh.
    assert (sh = Zdigits2 n - Zdigits2 d - prec) as Hsh' by lia.
    assert (0 < n) as Hpos.
    { destruct (Z.eq_dec n 0) as [->|]; [|lia].
      simpl Zdigits2 in Hsh'. destruct (Zdigits2_bounds d Hd). unfold prec in *. lia. }
    destruct (Zdigits2_bounds n Hpos) as (_ & Hlo & _).
    destruct (Zdigits2_bounds d Hd) as (Hdd & _ & Hhi).
    replace (Zdigits2 n - 1) with (Zdigits2 d + (sh + prec - 1)) in Hlo
      by (unfold prec in *; lia).
    rewrite Z.pow_add_r in Hlo by (unfold prec in *; lia).
    assert (0 < 2 ^ (sh + prec - 1)) by (apply Z.pow_pos_nonneg; unfold prec; lia).
    nia.
Qed.

End QuotShift.

(** ** Rounding a quotient to a mantissa and a shift *)

(** Two different multiples of [D] at the same distance from [n], one of
    them within half of [D]: the distance is exactly half of [D]. *)
Lemma abs_tie_half (n D m0 j : Z) :
  0 < D -> j <> m0 ->
  2 * Z.abs (n - m0 * D) <= D ->
  Z.abs (n - m0 * D) = Z.abs (n - j * D) ->
  2 * Z.abs (n - m0 * D) = D.
Proof.
  intros HD Hj Hnear Htie.
  assert (D <= Z.abs (j * D - m0 * D)) as Hgap.
  { replace (j * D - m0 * D) with ((j - m0) * D) by ring.
    rewrite Z.abs_mul, (Z.abs_eq D) by lia.
    assert (1 <= Z.abs (j - m0)) by lia.
    apply Z.le_trans with (1 * D); [lia|].
    apply Z.mul_le_mono_nonneg_r; lia. }
  lia.
Qed.

Section RoundQuot.

Variables n d : Z.
Hypothesis Hn : 0 <= n.
Hypothesis Hd : 0 < d.

(** The two ways [round_quot] ends: without and with a carry. *)
Lemma round_quot_cases (m sh : Z) :
  round_quot n d = (m, sh) ->
  let sh0 := quot_shift n d in
  let m0 := rne_div n (d * 2 ^ sh0) in
  (m0 < 2 ^ prec /\ m = m0 /\ sh = sh0) \/
  (m0 = 2 ^ prec /\ m = 2 ^ (prec - 1) /\ sh = sh0 + 1).
Proof using Hn Hd.
  intros H sh0 m0. unfold round_quot in H. fold sh0 in H. fold m0 in H.
  pose proof (quot_shift_nonneg n d Hn Hd) as Hsh. fold sh0 in Hsh.
  pose proof (quot_shift_upper n d Hn Hd) as Hup. fold sh0 in Hup.
  assert (0 < 2 ^ sh0) as Hp by (apply Z.pow_pos_nonneg; lia).
  assert (m0 <= 2 ^ prec) as Hle.
  { apply rne_div_le; [lia | nia |].
    rewrite Z.pow_add_r in Hup by (unfold prec; lia). lia. }
  destruct (Z.eqb_spec m0 (2 ^ prec)) as [Heq|Hne]; injection H as <- <-.
  - right. auto.
  - left. repeat split. lia.
Qed.

Lemma round_quot_bounds (m sh : Z) :
  round_quot n d = (m, sh) ->
  0 <= sh /\ 0 <= m < 2 ^ prec /\ (0 < sh -> 2 ^ (prec - 1) <= m).
Proof using Hn Hd.
  intros H. apply round_quot_cases in H. cbv zeta in H.
  pose proof (quot_shift_nonneg n d Hn Hd) as Hsh.
  pose proof (quot_shift_lower n d Hn Hd) as Hlo.
  set (sh0 := quot_shift n d) in *.
  assert (0 < 2 ^ sh0) as Hp by (apply Z.pow_pos_nonneg; lia).
  assert (0 < d * 2 ^ sh0) as HD by (apply Z.mul_pos_pos; lia).
  pose proof (rne_div_nonneg n (d * 2 ^ sh0) Hn HD) as Hm0.
  destruct H as [(Hlt & -> & ->)|(Heq & -> & ->)].
  - repeat split; try lia. intros Hpos.
    apply rne_div_ge; try lia.
    specialize (Hlo Hpos).
    replace (sh0 + prec - 1) with (sh0 + (prec - 1)) in Hlo by lia.
    rewrite Z.pow_add_r in Hlo by (unfold prec; lia). lia.
  - change (2 ^ prec) with (2 * 2 ^ (prec - 1)).
    assert (0 < 2 ^ (prec - 1)) by reflexivity. lia.
Qed.

(** No value [mg * 2 ^ eg] with a mantissa below [2 ^ prec] is nearer to
    [n / d] than the rounded quotient. *)
Lemma round_quot_nearest (m sh mg eg : Z) :
  round_quot n d = (m, sh) ->
  0 <= mg < 2 ^ prec -> 0 <= eg ->
  Z.abs (n - m * 2 ^ sh * d) <= Z.abs (n - mg * 2 ^ eg * d).
Proof using Hn Hd.
  intros H Hmg Heg. apply round_quot_cases in H. cbv zeta in H.
  pose proof (quot_shift_nonneg n d Hn Hd) as Hsh.
  pose proof (quot_shift_lower n d Hn Hd) as Hlo.
  set (sh0 := quot_shift n d) in *.
  assert (0 < 2 ^ sh0) as Hp by (apply Z.pow_pos_nonneg; lia).
  assert (0 < d * 2 ^ sh0) as HD by (apply Z.mul_pos_pos; lia).
  set (m0 := rne_div n (d * 2 ^ sh0)) in *.
  assert (m * 2 ^ sh = m0 * 2 ^ sh0) as ->.
  { destruct H as [(_ & -> & ->)|(Hm0 & -> & ->)]; [reflexivity|].
    rewrite Hm0, Z.pow_add_r by lia.
    change (2 ^ prec) with (2 ^ (prec - 1) * 2 ^ 1). ring. }
  pose proof (rne_div_nearest n (d * 2 ^ sh0) Hn HD) as Hnear. fold m0 in Hnear.
  destruct (Z_le_gt_dec sh0 eg) as [Hge|Hlt].
  - replace eg with (eg - sh0 + sh0) by lia.
    rewrite Z.pow_add_r by lia.
    specialize (Hnear (mg * 2 ^ (eg - sh0))).
    replace (m0 * 2 ^ sh0 * d) with (m0 * (d * 2 ^ sh0)) by ring.
    replace (mg * (2 ^ (eg - sh0) * 2 ^ sh0) * d)
      with (mg * 2 ^ (eg - sh0) * (d * 2 ^ sh0)) by ring.
    exact Hnear.
  - specialize (Hlo ltac:(lia)). specialize (Hnear (2 ^ (prec - 1))).
    replace (sh0 + prec - 1) with (sh0 + (prec - 1)) in Hlo by lia.
    rewrite Z.pow_add_r in Hlo by (unfold prec; lia).
    assert (2 ^ sh0 = 2 ^ eg * 2 ^ (sh0 - 1 - eg) * 2 ^ 1) as Hs.
    { rewrite <- !Z.pow_add_r by lia. f_equal. lia. }
    assert (0 < 2 ^ eg) by (apply Z.pow_pos_nonneg; lia).
    assert (0 < 2 ^ (sh0 - 1 - eg)) by (apply Z.pow_pos_nonneg; lia).
    change (2 ^ prec) with (2 * 2 ^ (prec - 1)) in Hmg.
    change (2 ^ 1) with 2 in Hs.
    assert (0 < 2 ^ (prec - 1)) by reflexivity.
    replace (m0 * 2 ^ sh0 * d) with (m0 * (d * 2 ^ sh0)) by ring.
    assert (mg * 2 ^ eg * d <= 2 ^ (prec - 1) * (d * 2 ^ sh0)).
    { rewrite Hs.
      set (P := 2 ^ (prec - 1)) in *. set (A := 2 ^ eg) in *.
      set (C := 2 ^ (sh0 - 1 - eg)) in *.
      assert (mg * (A * d) <= 2 * P * (A * d)) by nia.
      assert (1 * (2 * P * (A * d)) <= C * (2 * P * (A * d))) by nia.
      nia. }
    lia.
Qed.

(** The shift stays within [B] exactly when the quotient is below the
    midpoint between the last mantissa at shift [B] and [2 ^ prec]. *)
Lemma round_quot_shift_le (B m sh : Z) :
  0 <= B ->
  round_quot n d = (m, sh) ->
  sh <= B <-> 2 * n < (2 ^ (prec + 1) - 1) * 2 ^ B * d.
Proof using Hn Hd.
  intros HB H. apply round_quot_cases in H. cbv zeta in H.
  pose proof (quot_shift_nonneg n d Hn Hd) as Hsh.
  pose proof (quot_shift_lower n d Hn Hd) as Hlo.
  pose proof (quot_shift_upper n d Hn Hd) as Hup.
  set (sh0 := quot_shift n d) in *.
  assert (0 < 2 ^ sh0) as Hp by (apply Z.pow_pos_nonneg; lia).
  assert (0 < d * 2 ^ sh0) as HD by (apply Z.mul_pos_pos; lia).
  pose proof (rne_div_lt_half n (d * 2 ^ sh0) Hn HD (2 ^ prec)) as Hlt.
  pose proof (rne_div_ge_half n (d * 2 ^ sh0) Hn HD (2 ^ prec) eq_refl) as Hge.
  set (m0 := rne_div n (d * 2 ^ sh0)) in *.
  assert (0 < 2 ^ B) as HpB by (apply Z.pow_pos_nonneg; lia).
  change (2 ^ (prec + 1)) with (2 * 2 ^ prec).
  assert (0 < 2 ^ (prec - 1)) as HP by reflexivity.
  change (2 ^ prec) with (2 * 2 ^ (prec - 1)) in *.
  replace (sh0 + prec - 1) with (sh0 + (prec - 1)) in Hlo by lia.
  replace (sh0 + prec) with (sh0 + (prec - 1) + 1) in Hup by lia.
  rewrite !Z.pow_add_r in Hup by (unfold prec; lia).
  rewrite Z.pow_add_r in Hlo by (unfold prec; lia).
  change (2 ^ 1) with 2 in Hup.
  set (P := 2 ^ (prec - 1)) in *.
  destruct (Z.lt_trichotomy sh0 B) as [Hlt0|[Heq0|Hgt0]].
  - (* the shift is below B *)
    split; [intros _|intros _; lia].
    assert (2 * 2 ^ sh0 <= 2 ^ B).
    { replace B with (sh0 + 1 + (B - sh0 - 1)) by lia.
      rewrite !Z.pow_add_r by lia. change (2 ^ 1) with 2.
      assert (0 < 2 ^ (B - sh0 - 1)) by (apply Z.pow_pos_nonneg; lia). nia. }
    assert (d * (2 * 2 ^ sh0) <= d * 2 ^ B) by nia.
    nia.
  - (* the shift is B: the carry decides *)
    rewrite Heq0 in *.
    split.
    + intros Hle.
      destruct (Z_lt_le_dec (2 * n) ((2 * (2 * P) - 1) * 2 ^ B * d)) as [|Hc];
        [assumption|].
      assert (2 * P <= m0) by (apply Hge; lia). lia.
    + intros Hc. assert (m0 < 2 * P) by (apply Hlt; lia). lia.
  - (* the shift is above B *)
    split; [intros Hle; lia|intros Hc; exfalso].
    specialize (Hlo ltac:(lia)).
    assert (2 * 2 ^ B <= 2 ^ sh0).
    { replace sh0 with (B + 1 + (sh0 - B - 1)) by lia.
      rewrite !Z.pow_add_r by lia. change (2 ^ 1) with 2.
      assert (0 < 2 ^ (sh0 - B - 1)) by (apply Z.pow_pos_nonneg; lia). nia. }
    assert (d * P * (2 * 2 ^ B) <= d * P * 2 ^ sh0) by nia.
    nia.
Qed.

(** A different value at the same distance leaves an even mantissa: ties
    go to even. *)
Lemma round_quot_tie_even (m sh mg eg : Z) :
  round_quot n d = (m, sh) ->
  0 <= mg < 2 ^ prec -> 0 <= eg ->
  mg * 2 ^ eg <> m * 2 ^ sh ->
  Z.abs (n - m * 2 ^ sh * d) = Z.abs (n - mg * 2 ^ eg * d) ->
  Z.even m = true.
Proof using Hn Hd.
  intros H Hmg Heg Hne Htie. apply round_quot_cases in H. cbv zeta in H.
  pose proof (quot_shift_nonneg n d Hn Hd) as Hsh.
  pose proof (quot_shift_lower n d Hn Hd) as Hlo.
  set (sh0 := quot_shift n d) in *.
  assert (0 < 2 ^ sh0) as Hp by (apply Z.pow_pos_nonneg; lia).
  assert (0 < d * 2 ^ sh0) as HD by (apply Z.mul_pos_pos; lia).
  pose proof (rne_div_near n (d * 2 ^ sh0) Hn HD) as Hnear.
  pose proof (rne_div_nearest n (d * 2 ^ sh0) Hn HD (2 ^ (prec - 1))) as Hnear'.
  pose proof (rne_div_tie_even n (d * 2 ^ sh0) Hn HD) as Heven.
  set (m0 := rne_div n (d * 2 ^ sh0)) in *.
  assert (m * 2 ^ sh = m0 * 2 ^ sh0) as Hval.
  { destruct H as [(_ & -> & ->)|(Hm0 & -> & ->)]; [reflexivity|].
    rewrite Hm0, Z.pow_add_r by lia.
    change (2 ^ prec) with (2 ^ (prec - 1) * 2 ^ 1). ring. }
  rewrite Hval in Hne, Htie.
  assert (Z.even m0 = true -> Z.even m = true) as Hm.
  { destruct H as [(_ & -> & _)|(_ & -> & _)]; [auto|reflexivity]. }
  apply Hm.
  replace (m0 * 2 ^ sh0 * d) with (m0 * (d * 2 ^ sh0)) in Htie by ring.
  destruct (Z_le_gt_dec sh0 eg) as [Hge|Hlt].
  - apply Heven.
    replace eg with (eg - sh0 + sh0) in Hne, Htie by lia.
    rewrite Z.pow_add_r in Hne, Htie by lia.
    replace (mg * (2 ^ (eg - sh0) * 2 ^ sh0) * d)
      with (mg * 2 ^ (eg - sh0) * (d * 2 ^ sh0)) in Htie by ring.
    set (j := mg * 2 ^ (eg - sh0)) in *.
    assert (j <> m0) by (intros Hj; apply Hne; rewrite <- Hj; unfold j; ring).
    apply (abs_tie_half n (d * 2 ^ sh0) m0 j); assumption.
  - exfalso.
    specialize (Hlo ltac:(lia)).
    replace (sh0 + prec - 1) with (sh0 + (prec - 1)) in Hlo by lia.
    rewrite Z.pow_add_r in Hlo by (unfold prec; lia).
    assert (2 ^ sh0 = 2 ^ eg * 2 ^ (sh0 - 1 - eg) * 2 ^ 1) as Hs.
    { rewrite <- !Z.pow_add_r by lia. f_equal. lia. }
    assert (0 < 2 ^ eg) by (apply Z.pow_pos_nonneg; lia).
    assert (0 < 2 ^ (sh0 - 1 - eg)) by (apply Z.pow_pos_nonneg; lia).
    change (2 ^ prec) with (2 * 2 ^ (prec - 1)) in Hmg.
    change (2 ^ 1) with 2 in Hs.
    assert (0 < 2 ^ (prec - 1)) by reflexivity.
    assert (mg * 2 ^ eg * d < 2 ^ (prec - 1) * (d * 2 ^ sh0)).
    { rewrite Hs.
      set (P := 2 ^ (prec - 1)) in *. set (A := 2 ^ eg) in *.
      set (C := 2 ^ (sh0 - 1 - eg)) in *.
      assert (0 < A * d) by (apply Z.mul_pos_pos; lia).
      assert ((mg + 1) * (A * d) <= 2 * P * (A * d))
        by (apply Z.mul_le_mono_nonneg_r; lia).
      assert (0 <= 2 * P * (A * d)) by (apply Z.mul_nonneg_nonneg; lia).
      assert (1 * (2 * P * (A * d)) <= C * (2 * P * (A * d)))
        by (apply Z.mul_le_mono_nonneg_r; lia).
      replace (P * (d * (A * C * 2))) with (C * (2 * P * (A * d))) by ring.
      replace (mg * A * d) with ((mg + 1) * (A * d) - A * d) by ring.
      lia. }
    lia.
Qed.
End RoundQuot.

(** ** True division *)

Lemma shift_max_nonneg : 0 <= emax - prec - emin.
Proof. discriminate. Qed.

Lemma int_truediv_unfold (a b : Z) :
  b <> 0 ->
  int_truediv a b =
    let s := xorb (a <? 0) (b <? 0) in
    let '(m, sh) := round_quot (Z.abs a * 2 ^ (- emin)) (Z.abs b) in
    match m with
    | Zpos p =>
        if sh + emin <=? emax - prec then Return (S754_finite s p (sh + emin))
        else Raise OverflowError
    | _ => Return (S754_zero s)
    end.
Proof.
  intros Hb. unfold int_truediv.
  destruct (Z.eqb_spec b 0); [contradiction|reflexivity].
Qed.

Lemma scaled_threshold (x y : Z) :
  2 * (x * 2 ^ (- emin)) < (2 ^ (prec + 1) - 1) * 2 ^ (emax - prec - emin) * y
  <-> x < overflow_bound * y.
Proof.
  unfold overflow_bound.
  change (2 ^ (emax - prec - emin)) with (2 ^ (emax - prec - 1) * (2 * 2 ^ (- emin))).
  assert (0 < 2 ^ (- emin)) as HK by reflexivity.
  set (K := 2 ^ (- emin)) in *. set (E := 2 ^ (emax - prec - 1)).
  set (C := 2 ^ (prec + 1) - 1).
  replace (2 * (x * K)) with (x * (2 * K)) by ring.
  replace (C * (E * (2 * K)) * y) with (C * E * y * (2 * K)) by ring.
  symmetry. apply Z.mul_lt_mono_pos_r. lia.
Qed.

Lemma canonical_of_bounds (p : positive) (sh : Z) :
  0 <= sh -> Zpos p < 2 ^ prec -> (0 < sh -> 2 ^ (prec - 1) <= Zpos p) ->
  canonical_mantissa prec emax p (sh + emin) = true.
Proof.
  intros Hsh Hhi Hlo. unfold canonical_mantissa, fexp.
  apply Z.eqb_eq.
  change (SpecFloat.emin prec emax) with emin.
  change (Zpos (digits2_pos p)) with (Zdigits2 (Zpos p)).
  assert (Zdigits2 (Zpos p) <= prec) as Hle by (apply Zdigits2_le; lia).
  destruct (Z.eq_dec sh 0) as [->|Hne]; [lia|].
  assert (prec - 1 + 1 <= Zdigits2 (Zpos p)) as Hge
    by (apply Zdigits2_ge; [unfold prec|]; lia).
  lia.
Qed.

(** What a returned value is made of. *)
Lemma int_truediv_return_inv (a b : Z) (f : float) :
  b <> 0 ->
  int_truediv a b = Return f ->
  exists m sh,
    round_quot (Z.abs a * 2 ^ (- emin)) (Z.abs b) = (m, sh) /\
    (0 < m -> sh + emin <= emax - prec) /\
    units f = cond_Zopp (xorb (a <? 0) (b <? 0)) m * 2 ^ sh /\
    sign_of f = xorb (a <? 0) (b <? 0) /\
    binary64 f.
Proof.
  intros Hb. rewrite (int_truediv_unfold a b Hb). cbv zeta.
  assert (0 <= Z.abs a * 2 ^ (- emin)) as Hn.
  { apply Z.mul_nonneg_nonneg; [lia|]. apply Z.pow_nonneg. lia. }
  assert (0 < Z.abs b) as Hd by lia.
  pose proof (round_quot_bounds _ _ Hn Hd) as Hbnd.
  destruct (round_quot _ _) as [m sh].
  specialize (Hbnd m sh eq_refl). destruct Hbnd as (Hsh & Hm & Hlo).
  intros H. exists m, sh. split; [reflexivity|].
  destruct m as [|p|p]; [| |lia].
  - injection H as <-. split; [lia|]. split.
    { destruct (xorb _ _); reflexivity. }
    repeat split.
  - destruct (Z.leb_spec (sh + emin) (emax - prec)) as [Hle|]; [|discriminate].
    injection H as <-. split; [auto|]. split.
    { simpl units. f_equal. f_equal. lia. }
    split; [reflexivity|]. split; [reflexivity|].
    simpl. unfold bounded. rewrite canonical_of_bounds by (auto; lia).
    apply Z.leb_le. exact Hle.
Qed.

(** Every finite binary64 value is a mantissa below [2 ^ prec] times a
    non-negative power of two, in units of [2 ^ emin]. *)
Lemma binary64_units (g : float) :
  binary64 g ->
  exists mg eg,
    0 <= mg < 2 ^ prec /\ 0 <= eg /\ units g = cond_Zopp (sign_of g) mg * 2 ^ eg.
Proof.
  intros [Hfin Hval]. destruct g as [s|s| |s m e]; try discriminate.
  - exists 0, 0. repeat split; try lia. now destruct s.
  - simpl in Hval. unfold bounded in Hval.
    apply andb_prop in Hval. destruct Hval as [Hcan _].
    unfold canonical_mantissa, fexp in Hcan. apply Z.eqb_eq in Hcan.
    change (SpecFloat.emin prec emax) with emin in Hcan.
    exists (Zpos m), (e - emin). simpl units. simpl sign_of.
    repeat split; try lia.
    destruct (digits2_pos_bounds m) as [_ Hhi].
    assert (2 ^ Zpos (digits2_pos m) <= 2 ^ prec)
      by (apply Z.pow_le_mono_r; lia).
    lia.
Qed.

(** Signs factor out of the distance between a quotient and a value. *)
Lemma dist_same_sign (a b K M : Z) :
  b <> 0 ->
  Z.abs (a * K - cond_Zopp (xorb (a <? 0) (b <? 0)) M * b)
  = Z.abs (Z.abs a * K - M * Z.abs b).
Proof.
  intros Hb.
  destruct (Z.ltb_spec a 0), (Z.ltb_spec b 0); simpl;
    rewrite ?(Z.abs_neq a), ?(Z.abs_neq b), ?(Z.abs_eq a), ?(Z.abs_eq b) by lia;
    lia.
Qed.

Lemma dist_any_sign (a b K M : Z) (s : bool) :
  0 <= K -> 0 <= M ->
  Z.abs (Z.abs a * K - M * Z.abs b) <= Z.abs (a * K - cond_Zopp s M * b).
Proof.
  intros HK HM.
  assert (0 <= Z.abs a * K) by (apply Z.mul_nonneg_nonneg; lia).
  assert (0 <= M * Z.abs b) by (apply Z.mul_nonneg_nonneg; lia).
  destruct s; simpl;
    destruct (Z.abs_spec a) as [[? Ha]|[? Ha]], (Z.abs_spec b) as [[? Hb]|[? Hb]];
    rewrite Ha, Hb in *; nia.
Qed.

(** No finite binary64 value is nearer to [a / b] than the returned one.
    Distances are in units of [2 ^ emin] and multiplied by [|b|]. *)
Lemma int_truediv_nearest (a b : Z) (f g : float) :
  int_truediv a b = Return f ->
  binary64 g ->
  Z.abs (a * 2 ^ (- emin) - units f * b) <= Z.abs (a * 2 ^ (- emin) - units g * b).
Proof.
  intros Hf Hg.
  assert (b <> 0) as Hb.
  { intros ->. unfold int_truediv in Hf. simpl in Hf. discriminate. }
  destruct (int_truediv_return_inv a b f Hb Hf) as (m & sh & Hrq & _ & Hu & _ & _).
  destruct (binary64_units g Hg) as (mg & eg & Hmg & Heg & Hug).
  assert (0 <= Z.abs a * 2 ^ (- emin)) as Hn.
  { apply Z.mul_nonneg_nonneg; [lia|]. apply Z.pow_nonneg. lia. }
  assert (0 < Z.abs b) as Hd by lia.
  pose proof (round_quot_nearest _ _ Hn Hd m sh mg eg Hrq Hmg Heg) as Hnear.
  pose proof (round_quot_bounds _ _ Hn Hd m sh Hrq) as (Hsh & Hm & _).
  rewrite Hu, Hug.
  replace (cond_Zopp (xorb (a <? 0) (b <? 0)) m * 2 ^ sh)
    with (cond_Zopp (xorb (a <? 0) (b <? 0)) (m * 2 ^ sh))
    by (destruct (xorb _ _); simpl; ring).
  replace (cond_Zopp (sign_of g) mg * 2 ^ eg)
    with (cond_Zopp (sign_of g) (mg * 2 ^ eg))
    by (destruct (sign_of g); simpl; ring).
  rewrite dist_same_sign by assumption.
  eapply Z.le_trans; [exact Hnear|].
  apply dist_any_sign.
  - apply Z.pow_nonneg. lia.
  - apply Z.mul_nonneg_nonneg; [lia|]. apply Z.pow_nonneg. lia.
Qed.

(** True division returns exactly below the overflow bound, and raises
    [OverflowError] from it on. *)
Lemma int_truediv_in_range (a b : Z) :
  b <> 0 -> Z.abs a < overflow_bound * Z.abs b ->
  exists f, int_truediv a b = Return f.
Proof.
  intros Hb Hlt. rewrite (int_truediv_unfold a b Hb). cbv zeta.
  assert (0 <= Z.abs a * 2 ^ (- emin)) as Hn.
  { apply Z.mul_nonneg_nonneg; [lia|]. apply Z.pow_nonneg. lia. }
  assert (0 < Z.abs b) as Hd by lia.
  pose proof (round_quot_shift_le _ _ Hn Hd (emax - prec - emin)) as Hle.
  destruct (round_quot _ _) as [m sh].
  specialize (Hle m sh shift_max_nonneg eq_refl).
  apply scaled_threshold in Hlt. apply Hle in Hlt.
  destruct m; eauto.
  destruct (Z.leb_spec (sh + emin) (emax - prec)); [eauto|lia].
Qed.

Lemma int_truediv_overflow (a b : Z) :
  b <> 0 -> overflow_bound * Z.abs b <= Z.abs a ->
  int_truediv a b = Raise OverflowError.
Proof.
  intros Hb Hge. rewrite (int_truediv_unfold a b Hb). cbv zeta.
  assert (0 <= Z.abs a * 2 ^ (- emin)) as Hn.
  { apply Z.mul_nonneg_nonneg; [lia|]. apply Z.pow_nonneg. lia. }
  assert (0 < Z.abs b) as Hd by lia.
  pose proof (round_quot_shift_le _ _ Hn Hd (emax - prec - emin)) as Hle.
  pose proof (round_quot_bounds _ _ Hn Hd) as Hbnd.
  destruct (round_quot _ _) as [m sh].
  specialize (Hle m sh shift_max_nonneg eq_refl).
  specialize (Hbnd m sh eq_refl). destruct Hbnd as (Hsh & Hm & Hlo).
  rewrite scaled_threshold in Hle.
  assert (emax - prec - emin < sh) as Hbig by lia.
  assert (0 < sh) as Hpos by (pose proof shift_max_nonneg; lia).
  specialize (Hlo Hpos).
  assert (0 < 2 ^ (prec - 1)) by reflexivity.
  destruct m as [|p|p]; try lia.
  destruct (Z.leb_spec (sh + emin) (emax - prec)); [lia|reflexivity].
Qed.

Lemma int_truediv_mantissa (a b : Z) (f : float) :
  b <> 0 ->
  int_truediv a b = Return f ->
  fst (round_quot (Z.abs a * 2 ^ (- emin)) (Z.abs b)) = mantissa f.
Proof.
  intros Hb. rewrite (int_truediv_unfold a b Hb). cbv zeta.
  assert (0 <= Z.abs a * 2 ^ (- emin)) as Hn.
  { apply Z.mul_nonneg_nonneg; [lia|]. apply Z.pow_nonneg. lia. }
  assert (0 < Z.abs b) as Hd by lia.
  pose proof (round_quot_bounds _ _ Hn Hd) as Hbnd.
  destruct (round_quot _ _) as [m sh].
  specialize (Hbnd m sh eq_refl). destruct Hbnd as (_ & Hm & _).
  destruct m as [|p|p]; [| |lia]; simpl fst.
  - intros H. injection H as <-. reflexivity.
  - destruct (_ <=? _); [|discriminate]. intros H. injection H as <-. reflexivity.
Qed.

(** A value of the other sign is strictly farther than zero is. *)
Lemma dist_other_sign (a b K M : Z) :
  b <> 0 -> 0 <= K -> 0 < M ->
  Z.abs (Z.abs a * K)
  < Z.abs (a * K - cond_Zopp (negb (xorb (a <? 0) (b <? 0))) M * b).
Proof.
  intros Hb HK HM.
  replace (cond_Zopp (negb (xorb (a <? 0) (b <? 0))) M)
    with (cond_Zopp (xorb (a <? 0) (b <? 0)) (- M))
    by (destruct (xorb _ _); simpl; lia).
  rewrite dist_same_sign by assumption.
  assert (0 <= Z.abs a * K) by (apply Z.mul_nonneg_nonneg; lia).
  assert (0 < M * Z.abs b) by (apply Z.mul_pos_pos; lia).
  replace (Z.abs a * K - - M * Z.abs b) with (Z.abs a * K + M * Z.abs b) by ring.
  lia.
Qed.

(** When another finite binary64 value is as near to [a / b] as the
    returned one, the returned one has an even mantissa. *)
Lemma int_truediv_tie_even (a b : Z) (f g : float) :
  int_truediv a b = Return f ->
  binary64 g ->
  units g <> units f ->
  Z.abs (a * 2 ^ (- emin) - units f * b) = Z.abs (a * 2 ^ (- emin) - units g * b) ->
  Z.even (mantissa f) = true.
Proof.
  intros Hf Hg Hne Htie.
  assert (b <> 0) as Hb.
  { intros ->. unfold int_truediv in Hf. simpl in Hf. discriminate. }
  destruct (int_truediv_return_inv a b f Hb Hf) as (m & sh & Hrq & _ & Hu & _ & _).
  pose proof (int_truediv_mantissa a b f Hb Hf) as Hman.
  rewrite Hrq in Hman. simpl fst in Hman. rewrite <- Hman.
  destruct (binary64_units g Hg) as (mg & eg & Hmg & Heg & Hug).
  assert (0 <= 2 ^ (- emin)) as HK by (apply Z.pow_nonneg; lia).
  assert (0 <= Z.abs a * 2 ^ (- emin)) as Hn
    by (apply Z.mul_nonneg_nonneg; lia).
  assert (0 < Z.abs b) as Hd by lia.
  pose proof (round_quot_bounds _ _ Hn Hd m sh Hrq) as (Hsh & Hm & _).
  assert (0 <= 2 ^ eg) by (apply Z.pow_nonneg; lia).
  assert (0 <= mg * 2 ^ eg) as HMg by (apply Z.mul_nonneg_nonneg; lia).
  rewrite Hu, Hug in Hne, Htie.
  replace (cond_Zopp (xorb (a <? 0) (b <? 0)) m * 2 ^ sh)
    with (cond_Zopp (xorb (a <? 0) (b <? 0)) (m * 2 ^ sh)) in Hne, Htie
    by (destruct (xorb _ _); simpl; ring).
  replace (cond_Zopp (sign_of g) mg * 2 ^ eg)
    with (cond_Zopp (sign_of g) (mg * 2 ^ eg)) in Hne, Htie
    by (destruct (sign_of g); simpl; ring).
  rewrite dist_same_sign in Htie by assumption.
  set (s := xorb (a <? 0) (b <? 0)) in *.
  assert (cond_Zopp (sign_of g) (mg * 2 ^ eg) = cond_Zopp s (mg * 2 ^ eg)
          \/ (sign_of g = negb s /\ 0 < mg * 2 ^ eg)) as [Hsame|[Hopp Hpos]].
  { destruct (Z.eq_dec (mg * 2 ^ eg) 0) as [->|].
    - left. destruct (sign_of g), s; reflexivity.
    - destruct (sign_of g), s; auto; right; split; auto; lia. }
  - rewrite Hsame in Hne, Htie. unfold s in Htie.
    rewrite dist_same_sign in Htie by assumption.
    apply (round_quot_tie_even _ _ Hn Hd m sh mg eg); try assumption.
    intros Heq. apply Hne. rewrite Heq. reflexivity.
  - exfalso. rewrite Hopp in Htie. unfold s in Htie.
    pose proof (dist_other_sign a b (2 ^ (- emin)) (mg * 2 ^ eg) Hb HK Hpos) as Hfar.
    pose proof (round_quot_nearest _ _ Hn Hd m sh 0 0 Hrq ltac:(lia) ltac:(lia)) as Hnear.
    replace (Z.abs a * 2 ^ (- emin) - 0 * 2 ^ 0 * Z.abs b)
      with (Z.abs a * 2 ^ (- emin)) in Hnear by ring.
    lia.
Qed.

(** ** Values as rational numbers *)

Lemma SF2Q_units (g : float) :
  binary64 g -> (SF2Q g == inject_Z (units g) / inject_Z (2 ^ (- emin)))%Q.
Proof.
  intros [Hfin Hval]. destruct g as [s|s| |s m e]; try discriminate.
  - reflexivity.
  - simpl in Hval. unfold bounded in Hval.
    apply andb_prop in Hval. destruct Hval as [Hcan _].
    unfold canonical_mantissa, fexp in Hcan. apply Z.eqb_eq in Hcan.
    change (SpecFloat.emin prec emax) with emin in Hcan.
    assert (0 <= e - emin)%Z as He by lia.
    unfold SF2Q, units.
    rewrite inject_Z_mult, (Zpower_Qpower 2 (e - emin) He).
    rewrite (Zpower_Qpower 2 (- emin)) by discriminate.
    replace e with ((e - emin) + - (- emin))%Z at 1 by lia.
    rewrite Qpower_plus by discriminate.
    rewrite (Qpower_opp _ (- emin)).
    unfold Qdiv. rewrite Qmult_assoc. reflexivity.
Qed.

(** The distance between the quotient and a value, from the integers. *)
Lemma quotient_dist (a b : Z) (g : float) :
  b <> 0%Z -> binary64 g ->
  (Qabs (quotient a b - SF2Q g) ==
   inject_Z (Z.abs (a * 2 ^ (- emin) - units g * b))
   * Qabs (/ (inject_Z b * inject_Z (2 ^ (- emin)))))%Q.
Proof.
  intros Hb Hg. rewrite (SF2Q_units g Hg). unfold quotient.
  change (inject_Z (Z.abs (a * 2 ^ (- emin) - units g * b)))
    with (Qabs (inject_Z (a * 2 ^ (- emin) - units g * b))).
  rewrite <- Qabs_Qmult. apply Qabs_wd.
  unfold Zminus. rewrite inject_Z_plus, inject_Z_opp, !inject_Z_mult.
  assert (~ inject_Z b == 0)%Q as Hb'.
  { intros H. apply Hb. unfold Qeq in H. simpl in H. lia. }
  assert (~ inject_Z (2 ^ (- emin)) == 0)%Q as HK by discriminate.
  field. split; assumption.
Qed.

(** No finite binary64 value is nearer to the true quotient than the
    returned one. *)
Lemma int_truediv_nearest_Q (a b : Z) (f g : float) :
  int_truediv a b = Return f ->
  binary64 g ->
  (Qabs (quotient a b - SF2Q f) <= Qabs (quotient a b - SF2Q g))%Q.
Proof.
  intros Hf Hg.
  assert (b <> 0%Z) as Hb.
  { intros ->. unfold int_truediv in Hf. simpl in Hf. discriminate. }
  destruct (int_truediv_return_inv a b f Hb Hf) as (_ & _ & _ & _ & _ & _ & Hbf).
  rewrite (quotient_dist a b f Hb Hbf), (quotient_dist a b g Hb Hg).
  apply Qmult_le_compat_r; [|apply Qabs_nonneg].
  rewrite <- Zle_Qle. apply int_truediv_nearest; assumption.
Qed.

Lemma Qabs_inv_nonzero (t : Q) : (~ t == 0 -> ~ Qabs (/ t) == 0)%Q.
Proof.
  intros Ht H. rewrite Qabs_Qinv in H.
  assert (~ Qabs t == 0)%Q as Habs.
  { intros H0. apply Ht.
    destruct (Qabs_Qle_condition t 0) as [Hc _].
    destruct Hc as [H1 H2]; [rewrite H0; apply Qle_refl|].
    apply Qle_antisym; [exact H2|exact H1]. }
  apply Habs. rewrite <- (Qinv_involutive (Qabs t)), H. reflexivity.
Qed.

Lemma quotient_dist_eq (a b : Z) (f g : float) :
  b <> 0 -> binary64 f -> binary64 g ->
  (Qabs (quotient a b - SF2Q f) == Qabs (quotient a b - SF2Q g))%Q ->
  Z.abs (a * 2 ^ (- emin) - units f * b) = Z.abs (a * 2 ^ (- emin) - units g * b).
Proof.
  intros Hb Hf Hg H.
  rewrite (quotient_dist a b f Hb Hf), (quotient_dist a b g Hb Hg) in H.
  apply Qmult_inj_r in H.
  - apply inject_Z_injective. exact H.
  - apply Qabs_inv_nonzero.
    rewrite <- inject_Z_mult. change 0%Q with (inject_Z 0).
    rewrite inject_Z_injective.
    assert (0 < 2 ^ (- emin)) by reflexivity. nia.
Qed.

Lemma units_SF2Q (f g : float) :
  binary64 f -> binary64 g -> units g = units f -> (SF2Q g == SF2Q f)%Q.
Proof.
  intros Hf Hg H. rewrite (SF2Q_units f Hf), (SF2Q_units g Hg), H. reflexivity.
Qed.

(** * The handlers against their specification *)

Section Specification.

Context {World : Type} {OW : Outside World}.

(** ** greet *)

(** C1: for every string [s], [greet s] returns exactly
    ["Hello, " ++ s ++ "! You have been greeted from Python!"], and that
    result contains [s] verbatim. *)
Theorem greet_template (w : World) (s : string) :
  greet s w
  = (w, Return ("Hello, " ++ s ++ "! You have been greeted from Python!")%string)
  /\ str_in s ("Hello, " ++ s ++ "! You have been greeted from Python!")%string
     = true.
Proof.
  split; [reflexivity|]. apply str_in_app.
Qed.

(** C10: [greet] is injective: equal greetings come from equal names. *)
Theorem greet_injective (w1 w2 : World) (s1 s2 : string) :
  result (greet s1 w1) = result (greet s2 w2) -> s1 = s2.
Proof.
  unfold greet, ret, result. simpl snd. intros H. injection H as H.
  apply append_cancel_r in H. exact H.
Qed.

(** ** sum *)

(** C5: for all integers [a] and [b], [sum a b] returns the integer [a + b]. *)
Theorem sum_adds (w : World) (a b : Z) : sum a b w = (w, Return (a + b)).
Proof. reflexivity. Qed.

(** C6: addition is commutative: [sum a b] and [sum b a] agree, and both
    return [b + a]. *)
Theorem sum_commutative (w : World) (a b : Z) :
  sum a b w = sum b a w /\ sum a b w = (w, Return (b + a)).
Proof.
  unfold sum, ret. rewrite (Z.add_comm a b). split; reflexivity.
Qed.

(** C9: [sum] works on unbounded integers.  Whatever the magnitude of [a]
    and [b], the call returns, the result is the exact sum, each operand
    is recovered from it by subtraction, and it lies on the side of [a]
    that the sign of [b] tells: there is no overflow, no wrap-around and
    no loss of precision. *)
Theorem sum_unbounded (w : World) (a b : Z) :
  exists r,
    sum a b w = (w, Return r) /\
    r = a + b /\ r - a = b /\ r - b = a /\ (r ?= a) = (b ?= 0).
Proof.
  exists (a + b). repeat split; try lia.
  destruct (Z.compare_spec b 0).
  - apply Z.compare_eq_iff. lia.
  - apply Z.compare_lt_iff. lia.
  - apply Z.compare_gt_iff. lia.
Qed.

(** C8: [sum] and [greet] are total: every call returns a value and
    raises nothing. *)
Theorem sum_greet_total (w : World) :
  (forall a b : Z, exists r, sum a b w = (w, Return r)) /\
  (forall s : string, exists r, greet s w = (w, Return r)).
Proof.
  split; intros; eexists; reflexivity.
Qed.

(** ** division *)

Lemma division_nonzero (w : World) (a b : Z) :
  b <> 0 ->
  division a b w =
    match int_truediv a b with
    | Return q => (w, Return (Some q))
    | Raise e => (w, Raise e)
    end.
Proof.
  intros Hb. unfold division.
  destruct (Z.eqb_spec b 0); [contradiction|].
  unfold bind, prim, ret. destruct (int_truediv a b); reflexivity.
Qed.

Lemma int_truediv_no_zero_division (a b : Z) :
  b <> 0 -> int_truediv a b <> Raise ZeroDivisionError.
Proof.
  intros Hb.
  destruct (Z_lt_le_dec (Z.abs a) (overflow_bound * Z.abs b)) as [Hlt|Hge].
  - destruct (int_truediv_in_range a b Hb Hlt) as [f ->]. discriminate.
  - rewrite (int_truediv_overflow a b Hb Hge). discriminate.
Qed.

(** C3: for every integer [a], [division a 0] returns [None]. *)
Theorem division_by_zero (w : World) (a : Z) : division a 0 w = (w, Return None).
Proof. reflexivity. Qed.

(** C2, amended: for all integers [a] and [b] with [b <> 0] whose quotient
    is below [overflow_bound] in magnitude, [division a b] returns the
    true quotient [a / b] rounded to binary64: a finite binary64 value
    with the sign of the quotient, such that no finite binary64 value is
    nearer to [a / b], with an even mantissa when another value is as
    near, and equal to [a / b] whenever [a / b] is a binary64 value. *)
Theorem division_rounds_quotient (w : World) (a b : Z) :
  b <> 0 ->
  Z.abs a < overflow_bound * Z.abs b ->
  exists f,
    division a b w = (w, Return (Some f)) /\
    binary64 f /\
    sign_of f = xorb (a <? 0) (b <? 0) /\
    (forall g, binary64 g ->
       (Qabs (quotient a b - SF2Q f) <= Qabs (quotient a b - SF2Q g))%Q) /\
    (forall g, binary64 g ->
       (~ SF2Q g == SF2Q f)%Q ->
       (Qabs (quotient a b - SF2Q g) == Qabs (quotient a b - SF2Q f))%Q ->
       Z.even (mantissa f) = true) /\
    (forall g, binary64 g ->
       (SF2Q g == quotient a b)%Q -> (SF2Q f == quotient a b)%Q).
Proof.
  intros Hb Hlt.
  destruct (int_truediv_in_range a b Hb Hlt) as [f Hf].
  exists f. rewrite (division_nonzero w a b Hb), Hf.
  destruct (int_truediv_return_inv a b f Hb Hf) as (_ & _ & _ & _ & _ & Hs & Hbf).
  assert (forall g, binary64 g ->
            (Qabs (quotient a b - SF2Q f) <= Qabs (quotient a b - SF2Q g))%Q)
    as Hnear by (intros g Hg; apply int_truediv_nearest_Q; assumption).
  split; [reflexivity|]. split; [exact Hbf|]. split; [exact Hs|].
  split; [exact Hnear|]. split.
  - intros g Hg Hne Htie.
    apply (int_truediv_tie_even a b f g Hf Hg).
    + intros Hu. apply Hne. apply units_SF2Q; assumption.
    + apply quotient_dist_eq; try assumption. symmetry. exact Htie.
  - intros g Hg Heq. specialize (Hnear g Hg).
    rewrite Heq in Hnear.
    setoid_replace (quotient a b - quotient a b)%Q with 0%Q in Hnear by ring.
    change (Qabs 0) with 0%Q in Hnear.
    apply Qabs_diff_Qle_condition in Hnear. destruct Hnear as [H1 H2].
    apply Qle_antisym; lra.
Qed.

(** C4, amended: [division a b] returns [None] exactly when [b = 0], so a
    zero divisor is signalled by the absent value and never by
    [ZeroDivisionError]; the one fault a call can raise is [OverflowError],
    raised exactly when [b <> 0] and the quotient reaches [overflow_bound]
    in magnitude. *)
Theorem division_faults (w : World) (a b : Z) :
  (division a b w = (w, Return None) <-> b = 0) /\
  result (division a b w) <> Raise ZeroDivisionError /\
  (result (division a b w) = Raise OverflowError
   <-> b <> 0 /\ overflow_bound * Z.abs b <= Z.abs a) /\
  (forall e, result (division a b w) = Raise e -> e = OverflowError).
Proof.
  destruct (Z.eq_dec b 0) as [->|Hb].
  - rewrite division_by_zero. unfold result. simpl snd.
    repeat split; try discriminate; tauto.
  - rewrite (division_nonzero w a b Hb). unfold result.
    pose proof (int_truediv_no_zero_division a b Hb) as Hz.
    destruct (Z_lt_le_dec (Z.abs a) (overflow_bound * Z.abs b)) as [Hlt|Hge].
    + destruct (int_truediv_in_range a b Hb Hlt) as [f Hf]. rewrite Hf in *.
      simpl snd. repeat split; try discriminate; try contradiction.
      intros [_ H]. lia.
    + rewrite (int_truediv_overflow a b Hb Hge) in *. simpl snd.
      repeat split; try discriminate; try contradiction; try assumption.
      intros e H. injection H as <-. reflexivity.
Qed.

(** ** Purity *)

(** C7: the three handlers are deterministic, stateless and free of side
    effects: the outcome of a call does not depend on the world it runs
    in, so two calls on the same arguments agree and no global is read,
    and the call leaves the world as it found it, so no global is bound
    and nothing is printed. *)
Theorem handlers_pure (w1 w2 : World) :
  (forall s : string,
     result (greet s w1) = result (greet s w2) /\
     world_after (greet s w1) = w1) /\
  (forall a b : Z,
     result (sum a b w1) = result (sum a b w2) /\
     world_after (sum a b w1) = w1) /\
  (forall a b : Z,
     result (division a b w1) = result (division a b w2) /\
     world_after (division a b w1) = w1).
Proof.
  repeat split.
  - unfold division. destruct (b =? 0); [reflexivity|].
    unfold bind, prim, ret, result. destruct (int_truediv a b); reflexivity.
  - unfold division. destruct (b =? 0); [reflexivity|].
    unfold bind, prim, ret, world_after. destruct (int_truediv a b); reflexivity.
Qed.

End Specification.

(** * Concrete calls *)

(** True division agrees with the standard library's IEEE 754 division of
    the operands on sample inputs. *)

Example int_truediv_1_3 :
  int_truediv 1 3 = Return (S754_finite false 6004799503160661 (-54))
  /\ SFdiv prec emax (Z2SF 1) (Z2SF 3) = S754_finite false 6004799503160661 (-54).
Proof. split; vm_compute; reflexivity. Qed.

Example int_truediv_neg7_2 :
  int_truediv (-7) 2 = Return (SFdiv prec emax (Z2SF (-7)) (Z2SF 2)).
Proof. vm_compute. reflexivity. Qed.

Example int_truediv_huge :
  int_truediv (10 ^ 400) (10 ^ 399 + 7)
  = Return (SFdiv prec emax (Z2SF (10 ^ 400)) (Z2SF (10 ^ 399 + 7))).
Proof. vm_compute. reflexivity. Qed.

Example int_truediv_subnormal :
  int_truediv 3 (2 ^ 1075) = Return (S754_finite false 2 (-1074))
  /\ SFdiv prec emax (Z2SF 3) (Z2SF (2 ^ 1075)) = S754_finite false 2 (-1074).
Proof. split; vm_compute; reflexivity. Qed.

Example int_truediv_underflow :
  int_truediv (-1) (2 ^ 1075) = Return (S754_zero true)
  /\ SFdiv prec emax (Z2SF (-1)) (Z2SF (2 ^ 1075)) = S754_zero true.
Proof. split; vm_compute; reflexivity. Qed.

Example int_truediv_largest :
  int_truediv (2 ^ 1024 - 2 ^ 970 - 1) 1
  = Return (S754_finite false (2 ^ 53 - 1) 971)
  /\ SFdiv prec emax (Z2SF (2 ^ 1024 - 2 ^ 970 - 1)) (Z2SF 1)
     = S754_finite false (2 ^ 53 - 1) 971.
Proof. split; vm_compute; reflexivity. Qed.

Example int_truediv_too_large :
  int_truediv (2 ^ 1024 - 2 ^ 970) 1 = Raise OverflowError
  /\ SFdiv prec emax (Z2SF (2 ^ 1024 - 2 ^ 970)) (Z2SF 1) = S754_infinity false.
Proof. split; vm_compute; reflexivity. Qed.

Example greet_Bob :
  greet "Bob" tt = (tt, Return "Hello, Bob! You have been greeted from Python!"%string).
Proof. reflexivity. Qed.

Example division_1_4 :
  division 1 4 tt = (tt, Return (Some (S754_finite false (2 ^ 52) (-54)))).
Proof. vm_compute. reflexivity. Qed.

(** The effects of the monad are visible: binding a global or printing
    changes the world, and a load sees what was bound.  A handler with one
    of them in its body would not pass [handlers_pure]. *)
Lemma effects_are_visible :
  world_after (store_global "sum" (PyInt 1) empty_world) <> empty_world /\
  world_after (print "Hello" empty_world) <> empty_world /\
  result (load_global "sum" empty_world)
  <> result (load_global "sum"
               (world_after (store_global "sum" (PyInt 1) empty_world))).
Proof.
  split; [|split].
  - intros H. apply (f_equal (fun w => globals w "sum")) in H. discriminate H.
  - intros H. apply (f_equal stdout) in H. discriminate H.
  - discriminate.
Qed.

(** C10 at a concrete pair of names. *)
Lemma greet_injective_witness :
  result (greet "Ada" tt) = result (greet "Ada" tt) /\ "Ada"%string = "Ada"%string.
Proof.
  split; [reflexivity|].
  apply (greet_injective tt tt "Ada" "Ada"). reflexivity.
Defined.

(** C2, amended, at [1 / 3]. *)
Lemma division_rounds_quotient_witness :
  3 <> 0 /\ Z.abs 1 < overflow_bound * Z.abs 3 /\
  exists f,
    division 1 3 tt = (tt, Return (Some f)) /\
    binary64 f /\
    forall g, binary64 g ->
      (Qabs (quotient 1 3 - SF2Q f) <= Qabs (quotient 1 3 - SF2Q g))%Q.
Proof.
  assert (3 <> 0) as H1 by lia.
  assert (Z.abs 1 < overflow_bound * Z.abs 3) as H2 by reflexivity.
  split; [exact H1|]. split; [exact H2|].
  destruct (division_rounds_quotient tt 1 3 H1 H2) as (f & Hf & Hb & _ & Hn & _ & _).
  exists f. split; [exact Hf|]. split; [exact Hb|exact Hn].
Defined.

(** C2 as stated fails: with the non-zero divisor [1], [division (2 ^ 1024) 1]
    returns no float at all, it raises [OverflowError]. *)
Lemma division_quotient_counterexample :
  1 <> 0 /\
  division (2 ^ 1024) 1 tt = (tt, Raise OverflowError) /\
  ~ (exists f, division (2 ^ 1024) 1 tt = (tt, Return (Some f))).
Proof.
  split; [discriminate|]. split; [vm_compute; reflexivity|].
  intros [f H]. vm_compute in H. discriminate.
Qed.

(** C4 as stated fails: [division (10 ^ 400) 7] raises a fault although
    the divisor is not zero. *)
Lemma division_never_raises_counterexample :
  7 <> 0 /\ exists e, result (division (10 ^ 400) 7 tt) = Raise e.
Proof.
  split; [discriminate|]. exists OverflowError. vm_compute. reflexivity.
Qed.

(** * Further properties of the handlers *)

(** ** Scaling numerator and denominator *)

(** [rne_div] through [Z.div] and [Z.modulo]. *)
Lemma rne_div_div_mod (n d : Z) :
  rne_div n d =
    match 2 * (n mod d) ?= d with
    | Lt => n / d
    | Gt => n / d + 1
    | Eq => if Z.even (n / d) then n / d else n / d + 1
    end.
Proof.
  unfold rne_div, Z.div, Z.modulo. destruct (Z.div_eucl n d). reflexivity.
Qed.

Lemma rne_div_scale (k n d : Z) :
  0 < k -> 0 < d -> rne_div (k * n) (k * d) = rne_div n d.
Proof.
  intros Hk Hd. rewrite !rne_div_div_mod.
  rewrite Z.div_mul_cancel_l by lia.
  rewrite Z.mul_mod_distr_l by lia.
  replace (2 * (k * (n mod d))) with (k * (2 * (n mod d))) by ring.
  rewrite <- Zmult_compare_compat_l by lia. reflexivity.
Qed.

(** The shift is the only one its two bounds allow. *)
Lemma quot_shift_unique (n d sh : Z) :
  0 <= n -> 0 < d -> 0 <= sh ->
  n < d * 2 ^ (sh + prec) ->
  (0 < sh -> d * 2 ^ (sh + prec - 1) <= n) ->
  quot_shift n d = sh.
Proof.
  intros Hn Hd Hsh Hup Hlo.
  pose proof (quot_shift_nonneg n d Hn Hd) as H0.
  pose proof (quot_shift_upper n d Hn Hd) as Hup0.
  pose proof (quot_shift_lower n d Hn Hd) as Hlo0.
  set (s0 := quot_shift n d) in *.
  destruct (Z.lt_trichotomy s0 sh) as [Hlt|[Heq|Hgt]]; [exfalso|exact Heq|exfalso].
  - specialize (Hlo ltac:(lia)).
    assert (2 ^ (s0 + prec) <= 2 ^ (sh + prec - 1))
      by (apply Z.pow_le_mono_r; unfold prec; lia).
    assert (d * 2 ^ (s0 + prec) <= d * 2 ^ (sh + prec - 1))
      by (apply Z.mul_le_mono_nonneg_l; lia).
    lia.
  - specialize (Hlo0 ltac:(lia)).
    assert (2 ^ (sh + prec) <= 2 ^ (s0 + prec - 1))
      by (apply Z.pow_le_mono_r; unfold prec; lia).
    assert (d * 2 ^ (sh + prec) <= d * 2 ^ (s0 + prec - 1))
      by (apply Z.mul_le_mono_nonneg_l; lia).
    lia.
Qed.

Lemma quot_shift_scale (k n d : Z) :
  0 < k -> 0 <= n -> 0 < d -> quot_shift (k * n) (k * d) = quot_shift n d.
Proof.
  intros Hk Hn Hd.
  pose proof (quot_shift_nonneg n d Hn Hd) as H0.
  pose proof (quot_shift_upper n d Hn Hd) as Hup0.
  pose proof (quot_shift_lower n d Hn Hd) as Hlo0.
  apply quot_shift_unique; try assumption.
  - apply Z.mul_nonneg_nonneg; lia.
  - apply Z.mul_pos_pos; lia.
  - rewrite <- Z.mul_assoc. apply Z.mul_lt_mono_pos_l; assumption.
  - intros Hpos. rewrite <- Z.mul_assoc.
    apply Z.mul_le_mono_nonneg_l; [lia|auto].
Qed.

Lemma round_quot_scale (k n d : Z) :
  0 < k -> 0 <= n -> 0 < d -> round_quot (k * n) (k * d) = round_quot n d.
Proof.
  intros Hk Hn Hd. unfold round_quot.
  rewrite quot_shift_scale by assumption.
  pose proof (quot_shift_nonneg n d Hn Hd) as H0.
  assert (0 < 2 ^ quot_shift n d) by (apply Z.pow_pos_nonneg; lia).
  rewrite <- Z.mul_assoc, rne_div_scale; [reflexivity|assumption|].
  apply Z.mul_pos_pos; lia.
Qed.

Lemma xorb_sign_scale (k a b : Z) :
  k <> 0 -> 0 < k \/ a <> 0 -> b <> 0 ->
  xorb (k * a <? 0) (k * b <? 0) = xorb (a <? 0) (b <? 0).
Proof.
  intros Hk Hka Hb.
  assert (0 < k \/ k < 0) as [Hpos|Hneg] by lia.
  - replace (k * a <? 0) with (a <? 0); [replace (k * b <? 0) with (b <? 0)|];
      [reflexivity| |];
      [destruct (Z.ltb_spec b 0), (Z.ltb_spec (k * b) 0)
      |destruct (Z.ltb_spec a 0), (Z.ltb_spec (k * a) 0)];
      try reflexivity; exfalso; nia.
  - replace (k * a <? 0) with (0 <? a); [replace (k * b <? 0) with (0 <? b)|];
      [destruct (Z.ltb_spec 0 a), (Z.ltb_spec a 0), (Z.ltb_spec 0 b),
         (Z.ltb_spec b 0); try reflexivity; lia
      |destruct (Z.ltb_spec 0 b), (Z.ltb_spec (k * b) 0)
      |destruct (Z.ltb_spec 0 a), (Z.ltb_spec (k * a) 0)];
      try reflexivity; exfalso; nia.
Qed.

(** True division sees only the quotient: a common factor changes nothing.
    A negative factor turns a zero numerator's result from [0.0] into
    [-0.0], so it is allowed for a non-zero numerator only. *)
Lemma int_truediv_scale (k a b : Z) :
  k <> 0 -> 0 < k \/ a <> 0 ->
  int_truediv (k * a) (k * b) = int_truediv a b.
Proof.
  intros Hk Hka. destruct (Z.eq_dec b 0) as [->|Hb].
  - rewrite Z.mul_0_r. reflexivity.
  - assert (k * b <> 0) as Hkb by nia.
    rewrite (int_truediv_unfold (k * a) (k * b) Hkb), (int_truediv_unfold a b Hb).
    cbv zeta. rewrite xorb_sign_scale by assumption.
    rewrite !Z.abs_mul, <- Z.mul_assoc.
    rewrite round_quot_scale; [reflexivity|lia| |lia].
    apply Z.mul_nonneg_nonneg; [lia|]. apply Z.pow_nonneg. lia.
Qed.

(** ** Underflow *)

(** The nearest integer is zero up to one half, the tie included. *)
Lemma rne_div_zero_iff (n d : Z) :
  0 <= n -> 0 < d -> rne_div n d = 0 <-> 2 * n <= d.
Proof.
  intros Hn Hd.
  destruct (rne_div_eucl n d Hn Hd) as (q & r & Hq & Hr & Hq0 & ->).
  destruct (Z.eq_dec q 0) as [->|Hne].
  - rewrite Z.mul_0_r, Z.add_0_l in Hq. subst r. simpl Z.even.
    destruct (Z.compare_spec (2 * n) d); split; intros; lia.
  - assert (d * 1 <= d * q) by (apply Z.mul_le_mono_nonneg_l; lia).
    destruct (2 * r ?= d); [destruct (Z.even q)| |]; split; intros; lia.
Qed.

Lemma round_quot_zero_iff (n d : Z) :
  0 <= n -> 0 < d -> fst (round_quot n d) = 0 <-> 2 * n <= d.
Proof.
  intros Hn Hd.
  pose proof (round_quot_bounds n d Hn Hd) as Hbnd.
  pose proof (round_quot_cases n d Hn Hd) as Hcases.
  destruct (round_quot n d) as [m sh] eqn:Hrq. simpl fst.
  specialize (Hbnd m sh eq_refl). destruct Hbnd as (Hsh & Hm & Hlo).
  specialize (Hcases m sh eq_refl). cbv zeta in Hcases.
  assert (0 < 2 ^ (prec - 1)) as HP by reflexivity.
  split.
  - intros ->.
    assert (sh = 0) as -> by lia.
    destruct Hcases as [(_ & H0 & Hs)|(_ & H0 & _)]; [|lia].
    rewrite <- Hs, Z.pow_0_r, Z.mul_1_r in H0. symmetry in H0.
    apply rne_div_zero_iff in H0; assumption.
  - intros Hle.
    assert (quot_shift n d = 0) as Hq.
    { apply quot_shift_unique; try lia.
      assert (d * 1 <= d * 2 ^ (0 + prec))
        by (apply Z.mul_le_mono_nonneg_l; [lia|discriminate]).
      lia. }
    rewrite Hq, Z.pow_0_r, Z.mul_1_r in Hcases.
    assert (rne_div n d = 0) as H0 by (apply rne_div_zero_iff; assumption).
    rewrite H0 in Hcases.
    destruct Hcases as [(_ & -> & _)|(Hbad & _)]; [reflexivity|discriminate].
Qed.

(** True division returns a zero exactly for the quotients of at most half
    the smallest subnormal; no exception signals the underflow. *)
Lemma int_truediv_zero_iff (a b : Z) :
  b <> 0 ->
  int_truediv a b = Return (S754_zero (xorb (a <? 0) (b <? 0)))
  <-> Z.abs a * 2 ^ (1 - emin) <= Z.abs b.
Proof.
  intros Hb. rewrite (int_truediv_unfold a b Hb). cbv zeta.
  assert (0 <= Z.abs a * 2 ^ (- emin)) as Hn.
  { apply Z.mul_nonneg_nonneg; [lia|]. apply Z.pow_nonneg. lia. }
  assert (0 < Z.abs b) as Hd by lia.
  pose proof (round_quot_zero_iff _ _ Hn Hd) as Hz.
  pose proof (round_quot_bounds _ _ Hn Hd) as Hbnd.
  destruct (round_quot _ _) as [m sh]. simpl fst in Hz.
  specialize (Hbnd m sh eq_refl). destruct Hbnd as (_ & Hm & _).
  change (2 ^ (1 - emin)) with (2 * 2 ^ (- emin)).
  replace (Z.abs a * (2 * 2 ^ (- emin))) with (2 * (Z.abs a * 2 ^ (- emin))) by ring.
  rewrite <- Hz.
  destruct m as [|p|p]; [| |lia].
  - split; reflexivity.
  - split; [|discriminate].
    destruct (_ <=? _); discriminate.
Qed.

(** ** Signs *)

Lemma int_truediv_opp_r (a b : Z) :
  int_truediv a (- b) = outcome_map SFopp (int_truediv a b).
Proof.
  destruct (Z.eq_dec b 0) as [->|Hb]; [reflexivity|].
  assert (- b <> 0) as Hb' by lia.
  rewrite (int_truediv_unfold a (- b) Hb'), (int_truediv_unfold a b Hb).
  cbv zeta. rewrite Z.abs_opp.
  replace (- b <? 0) with (negb (b <? 0))
    by (destruct (Z.ltb_spec b 0), (Z.ltb_spec (- b) 0); try reflexivity; lia).
  rewrite <- negb_xorb_r.
  destruct (round_quot _ _) as [[|p|p] sh]; try reflexivity.
  destruct (_ <=? _); reflexivity.
Qed.

Lemma int_truediv_opp_l (a b : Z) :
  a <> 0 -> int_truediv (- a) b = outcome_map SFopp (int_truediv a b).
Proof.
  intros Ha. destruct (Z.eq_dec b 0) as [->|Hb]; [reflexivity|].
  rewrite (int_truediv_unfold (- a) b Hb), (int_truediv_unfold a b Hb).
  cbv zeta. rewrite Z.abs_opp.
  replace (- a <? 0) with (negb (a <? 0))
    by (destruct (Z.ltb_spec a 0), (Z.ltb_spec (- a) 0); try reflexivity; lia).
  rewrite <- negb_xorb_l.
  destruct (round_quot _ _) as [[|p|p] sh]; try reflexivity.
  destruct (_ <=? _); reflexivity.
Qed.

(** ** The value depends on the quotient only *)

Lemma int_truediv_zero_units (a b : Z) (f : float) :
  b <> 0 -> a = 0 -> int_truediv a b = Return f -> units f = 0.
Proof.
  intros Hb -> Hf.
  pose proof (proj2 (int_truediv_zero_iff 0 b Hb)) as Hz.
  rewrite Hz in Hf by (simpl Z.abs; lia).
  injection Hf as <-. reflexivity.
Qed.

Lemma int_truediv_same_quotient (a b a' b' : Z) (f f' : float) :
  b <> 0 -> b' <> 0 -> a * b' = a' * b ->
  int_truediv a b = Return f -> int_truediv a' b' = Return f' ->
  units f = units f'.
Proof.
  intros Hb Hb' Hq Hf Hf'.
  destruct (Z.eq_dec a 0) as [Ha|Ha].
  - assert (a' = 0) as Ha' by (subst a; nia).
    rewrite (int_truediv_zero_units a b f), (int_truediv_zero_units a' b' f');
      auto.
  - assert (a' <> 0) as Ha' by (intros ->; nia).
    rewrite <- (int_truediv_scale b' a b) in Hf by auto.
    rewrite <- (int_truediv_scale b a' b') in Hf' by auto.
    replace (b * a') with (b' * a) in Hf' by lia.
    replace (b * b') with (b' * b) in Hf' by ring.
    rewrite Hf in Hf'. injection Hf' as <-. reflexivity.
Qed.

(** ** Exact quotients *)

Lemma int_truediv_exact_multiple (k b : Z) :
  b <> 0 -> Z.abs k <= 2 ^ prec ->
  exists f, int_truediv (k * b) b = Return f /\ units f = k * 2 ^ (- emin).
Proof.
  intros Hb Hk.
  assert (0 < Z.abs b) as Hd by lia.
  assert (0 < 2 ^ (- emin)) as HK by reflexivity.
  assert (Z.abs (k * b) < overflow_bound * Z.abs b) as Hin.
  { rewrite Z.abs_mul. apply Z.mul_lt_mono_pos_r; [assumption|].
    apply Z.le_lt_trans with (2 ^ prec); [assumption|reflexivity]. }
  destruct (int_truediv_in_range (k * b) b Hb Hin) as [f Hf].
  exists f. split; [exact Hf|].
  destruct (int_truediv_return_inv (k * b) b f Hb Hf) as (m & sh & Hrq & _ & Hu & _).
  assert (0 <= Z.abs (k * b) * 2 ^ (- emin)) as Hn
    by (apply Z.mul_nonneg_nonneg; lia).
  assert (exists mg eg, 0 <= mg < 2 ^ prec /\ 0 <= eg /\
                        mg * 2 ^ eg = Z.abs k * 2 ^ (- emin))
    as (mg & eg & Hmg & Heg & Hval).
  { destruct (Z.eq_dec (Z.abs k) (2 ^ prec)) as [->|Hne].
    - exists (2 ^ (prec - 1)), (1 - emin).
      split; [split; [discriminate|reflexivity]|].
      split; [discriminate|reflexivity].
    - exists (Z.abs k), (- emin).
      split; [lia|]. split; [discriminate|reflexivity]. }
  pose proof (round_quot_nearest _ _ Hn Hd m sh mg eg Hrq Hmg Heg) as Hnear.
  rewrite Hval, Z.abs_mul in Hnear.
  replace (Z.abs k * Z.abs b * 2 ^ (- emin) - Z.abs k * 2 ^ (- emin) * Z.abs b)
    with 0 in Hnear by ring.
  assert (m * 2 ^ sh * Z.abs b = Z.abs k * 2 ^ (- emin) * Z.abs b) as Heq by lia.
  apply Z.mul_cancel_r in Heq; [|lia].
  rewrite Hu.
  replace (cond_Zopp (xorb (k * b <? 0) (b <? 0)) m * 2 ^ sh)
    with (cond_Zopp (xorb (k * b <? 0) (b <? 0)) (m * 2 ^ sh))
    by (destruct (xorb _ _); simpl; ring).
  rewrite Heq.
  destruct (Z.ltb_spec (k * b) 0), (Z.ltb_spec b 0); simpl; nia.
Qed.

(** ** Order *)

(** A value no farther from [q] than a smaller one lies on or above their
    midpoint. *)
Lemma nearer_above_midpoint (q x y : Q) :
  (y < x -> Qabs (q - x) <= Qabs (q - y) -> x + y <= 2 * q)%Q.
Proof.
  intros Hlt. apply Qabs_case; intros H1; apply Qabs_case; intros H2 H; lra.
Qed.

Lemma nearer_below_midpoint (q x y : Q) :
  (y < x -> Qabs (q - y) <= Qabs (q - x) -> 2 * q <= x + y)%Q.
Proof.
  intros Hlt. apply Qabs_case; intros H1; apply Qabs_case; intros H2 H; lra.
Qed.

Lemma quotient_eq_cross (a b a' b' : Z) :
  b <> 0 -> b' <> 0 ->
  (quotient a b == quotient a' b')%Q -> a * b' = a' * b.
Proof.
  intros Hb Hb' H. unfold quotient in H.
  apply inject_Z_injective. rewrite !inject_Z_mult.
  assert (~ inject_Z b == 0)%Q as Hqb
    by (change 0%Q with (inject_Z 0); rewrite inject_Z_injective; assumption).
  assert (~ inject_Z b' == 0)%Q as Hqb'
    by (change 0%Q with (inject_Z 0); rewrite inject_Z_injective; assumption).
  setoid_replace (inject_Z a * inject_Z b')%Q
    with ((inject_Z a / inject_Z b) * (inject_Z b * inject_Z b'))%Q
    by (field; assumption).
  rewrite H. field. assumption.
Qed.

(** True division is monotone: a quotient that is not larger never gives a
    larger value. *)
Lemma int_truediv_monotone (a b a' b' : Z) (f f' : float) :
  int_truediv a b = Return f -> int_truediv a' b' = Return f' ->
  (quotient a b <= quotient a' b')%Q ->
  (SF2Q f <= SF2Q f')%Q.
Proof.
  intros Hf Hf' Hle.
  assert (b <> 0) as Hb.
  { intros ->. unfold int_truediv in Hf. simpl in Hf. discriminate. }
  assert (b' <> 0) as Hb'.
  { intros ->. unfold int_truediv in Hf'. simpl in Hf'. discriminate. }
  destruct (int_truediv_return_inv a b f Hb Hf) as (_ & _ & _ & _ & _ & _ & Hbf).
  destruct (int_truediv_return_inv a' b' f' Hb' Hf') as (_ & _ & _ & _ & _ & _ & Hbf').
  destruct (Qlt_le_dec (SF2Q f') (SF2Q f)) as [Hlt|]; [exfalso|assumption].
  pose proof (nearer_above_midpoint _ _ _ Hlt
                (int_truediv_nearest_Q a b f f' Hf Hbf')) as H1.
  pose proof (nearer_below_midpoint _ _ _ Hlt
                (int_truediv_nearest_Q a' b' f' f Hf' Hbf)) as H2.
  assert (quotient a b == quotient a' b')%Q as Heq by (apply Qle_antisym; lra).
  apply quotient_eq_cross in Heq; try assumption.
  pose proof (int_truediv_same_quotient a b a' b' f f' Hb Hb' Heq Hf Hf') as Hu.
  pose proof (units_SF2Q f' f Hbf' Hbf Hu) as Hv.
  rewrite Hv in Hlt. apply (Qlt_irrefl _ Hlt).
Qed.

(** ** Accuracy *)

(** The rounded quotient is off by at most one part in [2 ^ prec] of the
    quotient, or by at most half a unit when the shift is zero. *)
Lemma round_quot_error (n d m sh : Z) :
  0 <= n -> 0 < d ->
  round_quot n d = (m, sh) ->
  2 ^ prec * Z.abs (n - m * 2 ^ sh * d) <= n \/
  2 * Z.abs (n - m * 2 ^ sh * d) <= d.
Proof.
  intros Hn Hd H. apply round_quot_cases in H; try assumption. cbv zeta in H.
  pose proof (quot_shift_nonneg n d Hn Hd) as Hsh.
  pose proof (quot_shift_lower n d Hn Hd) as Hlo.
  set (sh0 := quot_shift n d) in *.
  assert (0 < 2 ^ sh0) as Hp by (apply Z.pow_pos_nonneg; lia).
  assert (0 < d * 2 ^ sh0) as HD by (apply Z.mul_pos_pos; lia).
  pose proof (rne_div_near n (d * 2 ^ sh0) Hn HD) as Hnear.
  set (m0 := rne_div n (d * 2 ^ sh0)) in *.
  assert (m * 2 ^ sh = m0 * 2 ^ sh0) as ->.
  { destruct H as [(_ & -> & ->)|(Hm0 & -> & ->)]; [reflexivity|].
    rewrite Hm0, Z.pow_add_r by lia.
    change (2 ^ prec) with (2 ^ (prec - 1) * 2 ^ 1). ring. }
  replace (m0 * 2 ^ sh0 * d) with (m0 * (d * 2 ^ sh0)) by ring.
  clear H. destruct (Z.eq_dec sh0 0) as [H0|Hne].
  - right. rewrite H0, Z.pow_0_r, Z.mul_1_r in *. exact Hnear.
  - left. specialize (Hlo ltac:(lia)).
    replace (sh0 + prec - 1) with (sh0 + (prec - 1)) in Hlo by lia.
    rewrite Z.pow_add_r in Hlo by (unfold prec; lia).
    change (2 ^ prec) with (2 ^ (prec - 1) * 2).
    assert (0 < 2 ^ (prec - 1)) as HP by reflexivity.
    set (P := 2 ^ (prec - 1)) in *. set (D := d * 2 ^ sh0) in *.
    set (E := Z.abs (n - m0 * D)) in *.
    assert (P * (2 * E) <= P * D) by (apply Z.mul_le_mono_nonneg_l; lia).
    replace (d * (2 ^ sh0 * P)) with (P * D) in Hlo by (unfold D; ring).
    lia.
Qed.

Lemma int_truediv_error (a b : Z) (f : float) :
  int_truediv a b = Return f ->
  2 ^ prec * Z.abs (a * 2 ^ (- emin) - units f * b)
  <= Z.abs (a * 2 ^ (- emin) - 0 * b) \/
  2 * Z.abs (a * 2 ^ (- emin) - units f * b) <= Z.abs b.
Proof.
  intros Hf.
  assert (b <> 0) as Hb.
  { intros ->. unfold int_truediv in Hf. simpl in Hf. discriminate. }
  destruct (int_truediv_return_inv a b f Hb Hf) as (m & sh & Hrq & _ & Hu & _ & _).
  assert (0 <= 2 ^ (- emin)) as HK by (apply Z.pow_nonneg; lia).
  assert (0 <= Z.abs a * 2 ^ (- emin)) as Hn
    by (apply Z.mul_nonneg_nonneg; lia).
  assert (0 < Z.abs b) as Hd by lia.
  pose proof (round_quot_error _ _ m sh Hn Hd Hrq) as Herr.
  rewrite Hu.
  replace (cond_Zopp (xorb (a <? 0) (b <? 0)) m * 2 ^ sh)
    with (cond_Zopp (xorb (a <? 0) (b <? 0)) (m * 2 ^ sh))
    by (destruct (xorb _ _); simpl; ring).
  rewrite dist_same_sign by assumption.
  replace (a * 2 ^ (- emin) - 0 * b) with (a * 2 ^ (- emin)) by ring.
  rewrite Z.abs_mul, (Z.abs_eq (2 ^ (- emin))) by assumption.
  exact Herr.
Qed.

Lemma binary64_zero : binary64 (S754_zero false).
Proof. split; reflexivity. Qed.

Lemma int_truediv_error_Q (a b : Z) (f : float) :
  int_truediv a b = Return f ->
  (Qabs (quotient a b - SF2Q f) * inject_Z (2 ^ prec) <= Qabs (quotient a b) \/
   Qabs (quotient a b - SF2Q f) * inject_Z (2 ^ (1 - emin)) <= 1)%Q.
Proof.
  intros Hf.
  assert (b <> 0) as Hb.
  { intros ->. unfold int_truediv in Hf. simpl in Hf. discriminate. }
  destruct (int_truediv_return_inv a b f Hb Hf) as (_ & _ & _ & _ & _ & _ & Hbf).
  pose proof (quotient_dist a b f Hb Hbf) as Hdf.
  pose proof (quotient_dist a b _ Hb binary64_zero) as Hd0.
  change (SF2Q (S754_zero false)) with 0%Q in Hd0.
  change (units (S754_zero false)) with 0 in Hd0.
  setoid_replace (quotient a b - 0)%Q with (quotient a b) in Hd0 by ring.
  set (c := Qabs (/ (inject_Z b * inject_Z (2 ^ (- emin))))) in *.
  assert (0 <= c)%Q as Hc by apply Qabs_nonneg.
  destruct (int_truediv_error a b f Hf) as [Hrel|Habs].
  - left. rewrite Hdf, Hd0.
    setoid_replace
      (inject_Z (Z.abs (a * 2 ^ (- emin) - units f * b)) * c * inject_Z (2 ^ prec))%Q
      with (inject_Z (2 ^ prec * Z.abs (a * 2 ^ (- emin) - units f * b)) * c)%Q
      by (rewrite inject_Z_mult; ring).
    apply Qmult_le_compat_r; [|exact Hc].
    rewrite <- Zle_Qle. exact Hrel.
  - right. rewrite Hdf.
    assert (inject_Z (Z.abs b) * c * inject_Z (2 ^ (- emin)) == 1)%Q as Hone.
    { unfold c. rewrite Qabs_Qinv, Qabs_Qmult.
      change (Qabs (inject_Z b)) with (inject_Z (Z.abs b)).
      change (Qabs (inject_Z (2 ^ (- emin)))) with (inject_Z (2 ^ (- emin))).
      field. split; [discriminate|].
      change 0%Q with (inject_Z 0). rewrite inject_Z_injective. lia. }
    rewrite <- Hone.
    change (2 ^ (1 - emin)) with (2 * 2 ^ (- emin)).
    setoid_replace
      (inject_Z (Z.abs (a * 2 ^ (- emin) - units f * b)) * c
       * inject_Z (2 * 2 ^ (- emin)))%Q
      with (inject_Z (2 * Z.abs (a * 2 ^ (- emin) - units f * b))
            * (c * inject_Z (2 ^ (- emin))))%Q
      by (rewrite !inject_Z_mult; ring).
    rewrite <- Qmult_assoc.
    apply Qmult_le_compat_r.
    + rewrite <- Zle_Qle. exact Habs.
    + apply Qmult_le_0_compat; [exact Hc|discriminate].
Qed.

(** ** Strings *)

Lemma substring_app_here (s t : string) :
  substring 0 (String.length s) (s ++ t) = s.
Proof.
  induction s as [|c s IH]; simpl.
  - destruct t; reflexivity.
  - rewrite IH. reflexivity.
Qed.

(** * The handlers: further behaviour *)

Section Behaviour.

Context {World : Type} {OW : Outside World}.

Lemma division_some_inv (w : World) (a b : Z) (f : float) :
  division a b w = (w, Return (Some f)) ->
  b <> 0 /\ int_truediv a b = Return f.
Proof.
  intros H. destruct (Z.eq_dec b 0) as [->|Hb].
  - discriminate H.
  - split; [exact Hb|]. rewrite (division_nonzero w a b Hb) in H.
    destruct (int_truediv a b); [|discriminate].
    injection H as <-. reflexivity.
Qed.

(** A returned float is a finite binary64 value in canonical form, never
    an infinity or a NaN, and its sign, also that of a zero, is the sign
    of the quotient: negative exactly when one of [a], [b] is negative. *)
Theorem division_returns_finite (w : World) (a b : Z) (f : float) :
  division a b w = (w, Return (Some f)) ->
  binary64 f /\ sign_of f = xorb (a <? 0) (b <? 0).
Proof.
  intros H. apply division_some_inv in H. destruct H as [Hb Hf].
  destruct (int_truediv_return_inv a b f Hb Hf) as (_ & _ & _ & _ & _ & Hs & Hbf).
  split; assumption.
Qed.

(** Multiplying numerator and denominator by a common non-zero factor
    changes nothing in the outcome of [division], provided the factor is
    positive or the numerator is not zero. *)
Theorem division_scale (w : World) (k a b : Z) :
  k <> 0 -> 0 < k \/ a <> 0 ->
  division (k * a) (k * b) w = division a b w.
Proof.
  intros Hk Hka. destruct (Z.eq_dec b 0) as [->|Hb].
  - rewrite Z.mul_0_r. reflexivity.
  - assert (k * b <> 0) as Hkb by nia.
    rewrite (division_nonzero w _ _ Hkb), (division_nonzero w _ _ Hb).
    rewrite int_truediv_scale by assumption. reflexivity.
Qed.

(** Negating the divisor, or a non-zero numerator, negates the float that
    [division] returns and leaves [None] and a raised exception as they
    are; negating both changes nothing. *)
Theorem division_opp (w : World) (a b : Z) :
  a <> 0 ->
  result (division (- a) b w)
  = outcome_map (option_map SFopp) (result (division a b w)) /\
  result (division a (- b) w)
  = outcome_map (option_map SFopp) (result (division a b w)) /\
  division (- a) (- b) w = division a b w.
Proof.
  intros Ha. destruct (Z.eq_dec b 0) as [->|Hb].
  - repeat split; reflexivity.
  - assert (- b <> 0) as Hb' by lia.
    rewrite !(division_nonzero w _ _ Hb), !(division_nonzero w _ _ Hb').
    rewrite (int_truediv_opp_l a (- b)) by assumption.
    rewrite (int_truediv_opp_l a b) by assumption.
    rewrite (int_truediv_opp_r a b).
    destruct (int_truediv a b) as [f|e]; simpl; repeat split.
    destruct f; simpl; rewrite ?negb_involutive; reflexivity.
Qed.

(** For a non-zero divisor, [division] returns a zero exactly when
    [|a| * 2 ^ 1075 <= |b|], that is for quotients of at most half the
    smallest subnormal: an underflow is silent. *)
Theorem division_underflow (w : World) (a b : Z) :
  b <> 0 ->
  division a b w = (w, Return (Some (S754_zero (xorb (a <? 0) (b <? 0)))))
  <-> Z.abs a * 2 ^ (1 - emin) <= Z.abs b.
Proof.
  intros Hb. rewrite <- (int_truediv_zero_iff a b Hb).
  rewrite (division_nonzero w a b Hb). split.
  - destruct (int_truediv a b); [|discriminate].
    intros H. injection H as ->. reflexivity.
  - intros ->. reflexivity.
Qed.

(** For a non-zero [b] and an integer [k] of magnitude at most [2 ^ 53],
    [division (k * b) b] returns a float whose value is [k] exactly. *)
Theorem division_exact_multiple (w : World) (k b : Z) :
  b <> 0 -> Z.abs k <= 2 ^ prec ->
  exists f,
    division (k * b) b w = (w, Return (Some f)) /\ (SF2Q f == inject_Z k)%Q.
Proof.
  intros Hb Hk.
  destruct (int_truediv_exact_multiple k b Hb Hk) as (f & Hf & Hu).
  exists f. rewrite (division_nonzero w _ _ Hb), Hf. split; [reflexivity|].
  destruct (int_truediv_return_inv _ _ f Hb Hf) as (_ & _ & _ & _ & _ & _ & Hbf).
  rewrite (SF2Q_units f Hbf), Hu, inject_Z_mult.
  field. discriminate.
Qed.

(** [division] is monotone in the quotient: when two calls return floats
    and the first quotient is at most the second, the first float is at
    most the second. *)
Theorem division_monotone (w : World) (a b a' b' : Z) (f f' : float) :
  division a b w = (w, Return (Some f)) ->
  division a' b' w = (w, Return (Some f')) ->
  (quotient a b <= quotient a' b')%Q ->
  (SF2Q f <= SF2Q f')%Q.
Proof.
  intros H H' Hle.
  apply division_some_inv in H. apply division_some_inv in H'.
  destruct H as [_ Hf]. destruct H' as [_ Hf'].
  exact (int_truediv_monotone a b a' b' f f' Hf Hf' Hle).
Qed.

(** Rounding does not cross an integer of magnitude at most [2 ^ 53]: a
    returned float is on the same side of it as the quotient. *)
Theorem division_integer_bounds (w : World) (a b k : Z) (f : float) :
  division a b w = (w, Return (Some f)) ->
  Z.abs k <= 2 ^ prec ->
  ((inject_Z k <= quotient a b)%Q -> (inject_Z k <= SF2Q f)%Q) /\
  ((quotient a b <= inject_Z k)%Q -> (SF2Q f <= inject_Z k)%Q).
Proof.
  intros H Hk. apply division_some_inv in H. destruct H as [Hb Hf].
  destruct (int_truediv_exact_multiple k 1 ltac:(discriminate) Hk)
    as (g & Hg & Hu).
  destruct (int_truediv_return_inv (k * 1) 1 g ltac:(discriminate) Hg)
    as (_ & _ & _ & _ & _ & _ & Hbg).
  assert (SF2Q g == inject_Z k)%Q as Hv.
  { rewrite (SF2Q_units g Hbg), Hu, inject_Z_mult. field. discriminate. }
  assert (quotient (k * 1) 1 == inject_Z k)%Q as Hq.
  { unfold quotient. rewrite Z.mul_1_r. field. }
  split; intros Hle; rewrite <- Hv; rewrite <- Hq in Hle.
  - exact (int_truediv_monotone _ _ _ _ g f Hg Hf Hle).
  - exact (int_truediv_monotone _ _ _ _ f g Hf Hg Hle).
Qed.

(** A returned float is accurate: it is off the true quotient by at most
    one part in [2 ^ 53] of the quotient or, for the smallest quotients,
    by at most [2 ^ -1075], half the smallest subnormal. *)
Theorem division_accuracy (w : World) (a b : Z) (f : float) :
  division a b w = (w, Return (Some f)) ->
  (Qabs (quotient a b - SF2Q f) * inject_Z (2 ^ prec) <= Qabs (quotient a b) \/
   Qabs (quotient a b - SF2Q f) * inject_Z (2 ^ (1 - emin)) <= 1)%Q.
Proof.
  intros H. apply division_some_inv in H. destruct H as [_ Hf].
  exact (int_truediv_error_Q a b f Hf).
Qed.

(** The name is read back from a greeting by slicing: it starts at index 7,
    after ["Hello, "], and the greeting is 43 characters longer than the
    name. *)
Theorem greet_slice (w : World) (s : string) :
  exists r,
    greet s w = (w, Return r) /\
    String.length r = (String.length s + 43)%nat /\
    substring 7 (String.length s) r = s /\
    startswith r "Hello, " = true.
Proof.
  eexists. split; [reflexivity|]. split; [|split].
  - simpl. rewrite append_length. simpl. lia.
  - simpl. apply substring_app_here.
  - reflexivity.
Qed.

End Behaviour.

(** ** Concrete calls *)

(** [0 / -1] is [-0.0]. *)
Lemma division_returns_finite_witness :
  division 0 (-1) tt = (tt, Return (Some (S754_zero true))) /\
  binary64 (S754_zero true) /\
  sign_of (S754_zero true) = xorb (0 <? 0) (-1 <? 0).
Proof.
  assert (division 0 (-1) tt = (tt, Return (Some (S754_zero true)))) as H
    by reflexivity.
  split; [exact H|].
  exact (division_returns_finite tt 0 (-1) (S754_zero true) H).
Defined.

Lemma division_scale_witness :
  -3 <> 0 /\ (0 < -3 \/ 2 <> 0) /\
  division (-3 * 2) (-3 * 7) tt = division 2 7 tt.
Proof.
  assert (-3 <> 0) as H1 by lia.
  assert (0 < -3 \/ 2 <> 0) as H2 by (right; lia).
  split; [exact H1|]. split; [exact H2|].
  exact (division_scale tt (-3) 2 7 H1 H2).
Defined.

Lemma division_opp_witness :
  5 <> 0 /\
  result (division (- 5) 3 tt)
  = outcome_map (option_map SFopp) (result (division 5 3 tt)).
Proof.
  assert (5 <> 0) as H by lia.
  split; [exact H|].
  exact (proj1 (division_opp tt 5 3 H)).
Defined.

Lemma division_underflow_witness :
  2 ^ 1075 <> 0 /\
  (division (-1) (2 ^ 1075) tt
   = (tt, Return (Some (S754_zero (xorb (-1 <? 0) (2 ^ 1075 <? 0)))))
   <-> Z.abs (-1) * 2 ^ (1 - emin) <= Z.abs (2 ^ 1075)).
Proof.
  assert (2 ^ 1075 <> 0) as H by (vm_compute; discriminate).
  split; [exact H|].
  exact (division_underflow tt (-1) (2 ^ 1075) H).
Defined.

Lemma division_exact_multiple_witness :
  7 <> 0 /\ Z.abs (-6) <= 2 ^ prec /\
  exists f,
    division (-6 * 7) 7 tt = (tt, Return (Some f)) /\ (SF2Q f == inject_Z (-6))%Q.
Proof.
  assert (7 <> 0) as H1 by lia.
  assert (Z.abs (-6) <= 2 ^ prec) as H2 by (vm_compute; discriminate).
  split; [exact H1|]. split; [exact H2|].
  exact (division_exact_multiple tt (-6) 7 H1 H2).
Defined.

Lemma division_monotone_witness :
  division 1 3 tt = (tt, Return (Some (S754_finite false 6004799503160661 (-54))))
  /\ division 1 2 tt = (tt, Return (Some (S754_finite false (2 ^ 52) (-53))))
  /\ (quotient 1 3 <= quotient 1 2)%Q
  /\ (SF2Q (S754_finite false 6004799503160661 (-54))
      <= SF2Q (S754_finite false (2 ^ 52) (-53)))%Q.
Proof.
  assert (division 1 3 tt
          = (tt, Return (Some (S754_finite false 6004799503160661 (-54)))))
    as H1 by (vm_compute; reflexivity).
  assert (division 1 2 tt
          = (tt, Return (Some (S754_finite false (2 ^ 52) (-53)))))
    as H2 by (vm_compute; reflexivity).
  assert (quotient 1 3 <= quotient 1 2)%Q as H3 by (vm_compute; discriminate).
  split; [exact H1|]. split; [exact H2|]. split; [exact H3|].
  exact (division_monotone tt 1 3 1 2 _ _ H1 H2 H3).
Defined.

Lemma division_integer_bounds_witness :
  division 7 2 tt = (tt, Return (Some (S754_finite false (7 * 2 ^ 50) (-51))))
  /\ Z.abs 3 <= 2 ^ prec
  /\ (inject_Z 3 <= quotient 7 2)%Q
  /\ (inject_Z 3 <= SF2Q (S754_finite false (7 * 2 ^ 50) (-51)))%Q.
Proof.
  assert (division 7 2 tt
          = (tt, Return (Some (S754_finite false (7 * 2 ^ 50) (-51)))))
    as H1 by (vm_compute; reflexivity).
  assert (Z.abs 3 <= 2 ^ prec) as H2 by (vm_compute; discriminate).
  assert (inject_Z 3 <= quotient 7 2)%Q as H3 by (vm_compute; discriminate).
  split; [exact H1|]. split; [exact H2|]. split; [exact H3|].
  exact (proj1 (division_integer_bounds tt 7 2 3 _ H1 H2) H3).
Defined.

Lemma division_accuracy_witness :
  division 1 3 tt = (tt, Return (Some (S754_finite false 6004799503160661 (-54))))
  /\ ((Qabs (quotient 1 3 - SF2Q (S754_finite false 6004799503160661 (-54)))
       * inject_Z (2 ^ prec) <= Qabs (quotient 1 3))%Q \/
      (Qabs (quotient 1 3 - SF2Q (S754_finite false 6004799503160661 (-54)))
       * inject_Z (2 ^ (1 - emin)) <= 1)%Q).
Proof.
  assert (division 1 3 tt
          = (tt, Return (Some (S754_finite false 6004799503160661 (-54)))))
    as H by (vm_compute; reflexivity).
  split; [exact H|].
  exact (division_accuracy tt 1 3 _ H).
Defined.
